(** * Dice distributions: a shallow embedding of [dice.py]

    The two source files of the repository are embedded here:
    - [src/dice.py] (23 June 2021): [_mergeDiceDicts], [diceDict],
      [diceProb] with its [exact] flag, and [roll];
    - [src/dice/dice.py] (30 Jan 2019): the older module, in [Module Old].

    Python dictionaries are finite maps [gmap Z V]: dictionary equality in
    Python ignores insertion order, and so does [gmap].  Python integers
    are [Z].  Exceptions are values of [exn]; the generator of the
    [random] module is an explicit state threaded through the calls. *)

From Stdlib Require Import ZArith QArith Qreduction.
From stdpp Require Import gmap strings list fin_maps sorting.

#[local] Open Scope Z_scope.

(** ** Python values and exceptions *)

(** What a caller may put in a die-list: an integer, a list of integer
    faces, or a string.  Elements of further types, floats among them,
    are outside the model. *)
Inductive elem :=
| EInt (n : Z)
| EList (faces : list Z)
| EStr (s : string).

(** What a caller may pass as [diceList] itself. *)
Inductive arg :=
| AInt (n : Z)
| AList (l : list elem)
| AStr (s : string).

Inductive exn :=
| AssertionError (msg : string)
| TypeError
| IndexError
| ZeroDivisionError
| OverflowError
| RecursionError.

Inductive result (A : Type) :=
| Ok (a : A)
| Raise (e : exn).
Arguments Ok {A} a.
Arguments Raise {A} e.

#[global] Instance elem_eq_dec : EqDecision elem.
Proof. solve_decision. Defined.
#[global] Instance exn_eq_dec : EqDecision exn.
Proof. solve_decision. Defined.

(** Outcome-count mappings. *)
Abbreviation dict := (gmap Z Z).

(** [d.get(k, 0)] *)
Definition get (d : dict) (k : Z) : Z := default 0 (d !! k).

(** [d.keys()] and [d.values()] *)
Definition keys {V} (d : gmap Z V) : list Z := (map_to_list d).*1.
Definition values {V} (d : gmap Z V) : list V := (map_to_list d).*2.

(** [sum(d.values())] *)
Definition sum_list (l : list Z) : Z := foldl Z.add 0 l.
Definition sum_values (d : dict) : Z := sum_list (values d).

(** ** [_mergeDiceDicts] *)

(** The body of the inner [for k2 in d2.keys()] loop. *)
Definition merge_step (d1 d2 : dict) (k1 : Z) (newDict : dict) (k2 : Z) : dict :=
  let newK := k1 + k2 in
  let newV := (d1 !!! k1) * (d2 !!! k2) in
  <[newK := get newDict newK + newV]> newDict.

Definition merge_inner (d1 d2 : dict) (ks2 : list Z) (newDict : dict) (k1 : Z) : dict :=
  foldl (merge_step d1 d2 k1) newDict ks2.

Definition merge_loop (d1 d2 : dict) (ks1 ks2 : list Z) (newDict : dict) : dict :=
  foldl (merge_inner d1 d2 ks2) newDict ks1.

Definition _mergeDiceDicts (d1 d2 : dict) : dict :=
  if (size d1 =? 0)%nat then d2
  else if (size d2 =? 0)%nat then d1
  else merge_loop d1 d2 (keys d1) (keys d2) ∅.

(** ** The [random] module

    The generator is a tape with one cell for each call of [randbelow]:
    [randbelow n] takes the next cell and reduces it below [n].  Every
    sequence of values the real generator returns is produced by some
    tape, so a statement about results proved for every tape holds for
    every run.  The tape fixes the values drawn only: how much of its
    state the real generator uses up for one value is not modelled. *)
Definition rng := list nat.

Definition randbelow (n : nat) (g : rng) : nat * rng :=
  match g with
  | [] => (0, [])
  | r :: g' => (r mod n, g')
  end%nat.

(** [x[i], x[j] = x[j], x[i]] *)
Definition swap {A} (i j : nat) (x : list A) : list A :=
  match x !! i, x !! j with
  | Some xi, Some xj => <[j := xi]> (<[i := xj]> x)
  | _, _ => x
  end.

(** [random.shuffle(x)]:
    [for i in reversed(range(1, len(x))): j = randbelow(i + 1); swap] *)
Fixpoint shuffle_loop {A} (i : nat) (x : list A) (g : rng) : list A * rng :=
  match i with
  | O => (x, g)
  | S i' => let '(j, g') := randbelow (S (S i')) g in
            shuffle_loop i' (swap (S i') j x) g'
  end.

Definition shuffle {A} (x : list A) (g : rng) : list A * rng :=
  shuffle_loop (length x - 1) x g.

(** [random.choice(seq)] *)
Definition choice {A} (seq : list A) (g : rng) : result A * rng :=
  match seq with
  | [] => (Raise IndexError, g)
  | _ => let '(i, g') := randbelow (length seq) g in
         (match seq !! i with Some a => Ok a | None => Raise IndexError end, g')
  end.

(** [range(a, b)] *)
Definition range (a b : Z) : list Z := seqZ a (b - a).

(** [sys.maxsize] of a 64-bit build: the largest length [len] returns. *)
Definition maxsize : Z := 2 ^ 63 - 1.

(** [random.choice(range(1, n + 1))] for [0 < n]: [choice] takes the
    [len] of the range first, which raises [OverflowError] when the
    range has more than [sys.maxsize] elements. *)
Definition choice_range (n : Z) (g : rng) : result Z * rng :=
  if maxsize <? n then (Raise OverflowError, g)
  else choice (range 1 (n + 1)) g.

(** ** [diceDict] *)

(** [l.count(x)] *)
Definition count (x : Z) (l : list Z) : Z :=
  Z.of_nat (length (filter (λ y, y = x) l)).

(** [{ k : f(k) for k in ks }] *)
Definition dict_comp {V} (f : Z → V) (ks : list Z) : gmap Z V :=
  foldl (λ d k, <[k := f k]> d) ∅ ks.

(** [for x in set(faces): newDict[x] = faces.count(x)] *)
Definition explicit_dict (faces : list Z) : dict :=
  dict_comp (λ x, count x faces) (elements (list_to_set faces : gset Z)).

(** [{ x : 1 for x in range(1, n+1) }] *)
Definition uniform_dict (n : Z) : dict :=
  dict_comp (λ _, 1) (range 1 (n + 1)).

Definition negative_sides : exn :=
  AssertionError "Negative number supplied as number of sides of die!".

(** The one-element case of [diceDict]; comparing a string with [0]
    raises [TypeError]. *)
Definition single_die (die : elem) : result dict :=
  match die with
  | EList faces => Ok (explicit_dict faces)
  | EInt n => if 0 <? n then Ok (uniform_dict n) else Raise negative_sides
  | EStr _ => Raise TypeError
  end.

(** Tuples compare lexicographically in [sorted(final.items())]. *)
Definition item_le (p q : Z * Z) : Prop :=
  p.1 < q.1 ∨ (p.1 = q.1 ∧ p.2 ≤ q.2).

#[global] Instance item_le_dec : RelDecision item_le.
Proof. intros p q. unfold item_le. apply _. Defined.

(** [{ k: v for k, v in sorted(final.items()) }] *)
Definition sorted_items (d : dict) : list (Z * Z) :=
  merge_sort item_le (map_to_list d).

Definition dict_of_items (items : list (Z * Z)) : dict :=
  foldl (λ d kv, <[kv.1 := kv.2]> d) ∅ items.

(** The recursion of [diceDict] on a list.  The result is the returned
    dictionary or the exception, the content of the caller's list object
    after the call (the shuffle is in place; the slices are fresh lists),
    and the generator.

    [split] gives the split point [L] from the length; the source has
    [L = int(len(diceList)/2)], see [diceDict_list].  The recursion is not
    structural, so it runs on [fuel]; the last branch stands for Python's
    [RecursionError] and is unreachable for the source's split, see
    [diceDict_list_unfold]. *)
Fixpoint diceDict_fuel (split : nat → nat) (fuel : nat)
    (diceList : list elem) (g : rng) : result dict * list elem * rng :=
  match diceList with
  | [] => (Ok ∅, diceList, g)
  | [die] => (single_die die, diceList, g)
  | _ =>
    match fuel with
    | S fuel' =>
      let '(diceList, g) := shuffle diceList g in
      let L := split (length diceList) in
      let '(leftRes, _, g) := diceDict_fuel split fuel' (take L diceList) g in
      match leftRes with
      | Raise e => (Raise e, diceList, g)
      | Ok leftDict =>
        let '(rightRes, _, g) := diceDict_fuel split fuel' (drop L diceList) g in
        match rightRes with
        | Raise e => (Raise e, diceList, g)
        | Ok rightDict =>
          let final := _mergeDiceDicts leftDict rightDict in
          (Ok (dict_of_items (sorted_items final)), diceList, g)
        end
      end
    | O => (Raise RecursionError, diceList, g)
    end
  end.

Definition diceDict_split (split : nat → nat) (diceList : list elem) (g : rng)
  : result dict * list elem * rng :=
  diceDict_fuel split (length diceList) diceList g.

(** [L = int(len(diceList)/2)] *)
Definition half (n : nat) : nat := (n / 2)%nat.

Definition diceDict_list : list elem → rng → result dict * list elem * rng :=
  diceDict_split half.

Definition invalid_argument (fn : string) : exn :=
  AssertionError ("Invalid argument to " +:+ fn +:+ "!").

(** [diceDict(diceList)]: the result, the caller's object after the call,
    and the generator. *)
Definition diceDict (diceList : arg) (g : rng) : result dict * arg * rng :=
  match diceList with
  | AList l => let '(r, l', g') := diceDict_list l g in (r, AList l', g')
  | _ => (Raise (invalid_argument "diceDict"), diceList, g)
  end.

(** ** [diceProb] *)

(** [isinstance(diceList, (list, int))], and the recast of an integer to
    a one-element list. *)
Definition as_list (diceList : arg) : option (list elem) :=
  match diceList with
  | AInt n => Some [EInt n]
  | AList l => Some l
  | AStr _ => None
  end.

(** [sorted(d.keys())] *)
Definition sorted_keys {V} (d : gmap Z V) : list Z := merge_sort Z.le (keys d).

(** [{ x : f(x) for x in ks }] where [f] may raise. *)
Fixpoint dict_comp_raise {V} (f : Z → result V) (ks : list Z) (acc : gmap Z V)
  : result (gmap Z V) :=
  match ks with
  | [] => Ok acc
  | k :: ks' =>
    match f k with
    | Ok v => dict_comp_raise f ks' (<[k := v]> acc)
    | Raise e => Raise e
    end
  end.

(** [Fraction(n, d)]: the fraction in lowest terms with a positive
    denominator. *)
Definition Fraction (n d : Z) : result Q :=
  if d =? 0 then Raise ZeroDivisionError
  else Ok (Qred (Qmake (Z.sgn d * n) (Z.to_pos (Z.abs d)))).

(** What [diceProb] returns: a dictionary of [Fraction]s in exact mode,
    of floats otherwise. *)
Inductive prob_dict (float : Type) :=
| Fractions (P : gmap Z Q)
| Floats (P : gmap Z float).
Arguments Fractions {float} P.
Arguments Floats {float} P.

Definition result_map {A B} (f : A → B) (r : result A) : result B :=
  match r with
  | Ok a => Ok (f a)
  | Raise e => Raise e
  end.

Section floats.
(** Floating-point numbers are taken as given, with [fdiv n d] the float
    that the true division [n / d] of two Python integers yields for a
    divisor other than [0]. *)
Variable float : Type.
Variable fdiv : Z → Z → float.

(** [n / d] *)
Definition truediv (n d : Z) : result float :=
  if d =? 0 then Raise ZeroDivisionError else Ok (fdiv n d).

Definition probabilities (exact : bool) (result_ : dict) : result (prob_dict float) :=
  let s := sum_values result_ in
  if exact then
    result_map Fractions
      (dict_comp_raise (λ x, Fraction (result_ !!! x) s) (sorted_keys result_) ∅)
  else
    result_map Floats
      (dict_comp_raise (λ x, truediv (result_ !!! x) s) (sorted_keys result_) ∅).

Definition diceProb (diceList : arg) (exact : bool) (g : rng)
  : result (prob_dict float) * arg * rng :=
  match as_list diceList with
  | None => (Raise (invalid_argument "diceProb"), diceList, g)
  | Some l =>
    let '(r, l', g') := diceDict_list l g in
    let after := match diceList with AList _ => AList l' | _ => diceList end in
    match r with
    | Raise e => (Raise e, after, g')
    | Ok result_ => (probabilities exact result_, after, g')
    end
  end.
End floats.

(** ** [roll] *)

Fixpoint roll_loop (diceList : list elem) (result_ : Z) (g : rng) : result Z * rng :=
  match diceList with
  | [] => (Ok result_, g)
  | dice :: rest =>
    match dice with
    | EInt n =>
      if 0 <? n then
        match choice_range n g with
        | (Ok v, g') => roll_loop rest (result_ + v) g'
        | (Raise e, g') => (Raise e, g')
        end
      else (Raise negative_sides, g)
    | EList faces =>
      match choice faces g with
      | (Ok v, g') => roll_loop rest (result_ + v) g'
      | (Raise e, g') => (Raise e, g')
      end
    | EStr _ => roll_loop rest result_ g
    end
  end.

Definition roll (diceList : arg) (g : rng) : result Z * rng :=
  match as_list diceList with
  | None => (Raise (invalid_argument "roll"), g)
  | Some l => roll_loop l 0 g
  end.

(** ** The older module, [src/dice/dice.py]

    Its [_mergeDiceDicts] has the same text as the newer one and is
    shared.  Its [diceDict] returns [final] as it is, and its [diceProb]
    has no [exact] flag and goes through the keys unsorted. *)
Module Old.
Fixpoint diceDict_fuel (fuel : nat) (diceList : list elem) (g : rng)
  : result dict * list elem * rng :=
  match diceList with
  | [] => (Ok ∅, diceList, g)
  | [die] => (single_die die, diceList, g)
  | _ =>
    match fuel with
    | S fuel' =>
      let '(diceList, g) := shuffle diceList g in
      let L := half (length diceList) in
      let '(leftRes, _, g) := diceDict_fuel fuel' (take L diceList) g in
      match leftRes with
      | Raise e => (Raise e, diceList, g)
      | Ok leftDict =>
        let '(rightRes, _, g) := diceDict_fuel fuel' (drop L diceList) g in
        match rightRes with
        | Raise e => (Raise e, diceList, g)
        | Ok rightDict =>
          let final := _mergeDiceDicts leftDict rightDict in
          (Ok final, diceList, g)
        end
      end
    | O => (Raise RecursionError, diceList, g)
    end
  end.

Definition diceDict_list (diceList : list elem) (g : rng)
  : result dict * list elem * rng :=
  diceDict_fuel (length diceList) diceList g.

Section floats.
Variable float : Type.
Variable fdiv : Z → Z → float.

Definition probabilities (result_ : dict) : result (prob_dict float) :=
  let s := sum_values result_ in
  result_map Floats
    (dict_comp_raise (λ x, truediv float fdiv (result_ !!! x) s) (keys result_) ∅).

Definition diceProb (diceList : arg) (g : rng)
  : result (prob_dict float) * arg * rng :=
  match as_list diceList with
  | None => (Raise (invalid_argument "diceProb"), diceList, g)
  | Some l =>
    let '(r, l', g') := diceDict_list l g in
    let after := match diceList with AList _ => AList l' | _ => diceList end in
    match r with
    | Raise e => (Raise e, after, g')
    | Ok result_ => (probabilities result_, after, g')
    end
  end.
End floats.
End Old.

(** ** Specification-side notions for the merge *)

(** The sum of [A[a]*B[b]] over all key pairs [(a, b)] with [a + b = s]. *)
Definition conv_sum (A B : dict) (s : Z) : Z :=
  sum_list (a ← keys A; b ← keys B;
            if decide (a + b = s) then [(A !!! a) * (B !!! b)] else []).

(** Some key pair of [A] and [B] sums to [s]. *)
Definition pair_sums_to (A B : dict) (s : Z) : Prop :=
  ∃ a b, a ∈ dom A ∧ b ∈ dom B ∧ a + b = s.

(** [wsum f l] is the sum of [f x] for [x] in [l]. *)
Definition wsum {A} (f : A → Z) (l : list A) : Z := sum_list (f <$> l).

(** The indicator of [x = y], as a weight. *)
Definition ind (x y : Z) : Z := if decide (x = y) then 1 else 0.

(** The contribution of the key pair [(k1, k2)] to the outcome [s]. *)
Definition term (d1 d2 : dict) (s k1 k2 : Z) : Z :=
  ind (k1 + k2) s * ((d1 !!! k1) * (d2 !!! k2)).

(** ** Specification-side notions for the distribution *)

(** The faces of a die: [Uniform(n)] has the faces [1..n], [Explicit]
    its own list. *)
Definition faces_of (die : elem) : list Z :=
  match die with
  | EInt n => range 1 (n + 1)
  | EList faces => faces
  | EStr _ => []
  end.

(** A die descriptor of the data model: a positive integer or a list of
    faces. *)
Definition valid_die (die : elem) : Prop :=
  match die with
  | EInt n => 0 < n
  | EList _ => True
  | EStr _ => False
  end.

#[global] Instance valid_die_dec die : Decision (valid_die die).
Proof. destruct die; simpl; apply _. Defined.

(** The face count of a die, and its product over a die-list. *)
Definition face_count (die : elem) : Z :=
  match die with
  | EInt n => n
  | EList faces => Z.of_nat (length faces)
  | EStr _ => 0
  end.

Definition face_product (l : list elem) : Z :=
  foldr (λ die acc, face_count die * acc) 1 l.

(** All sums of one outcome of [O1] and one of [O2], with multiplicity. *)
Definition sums (O1 O2 : list Z) : list Z := a ← O1; (λ b, a + b) <$> O2.

(** The same with the empty list as identity, as the merge has it. *)
Definition msum (O1 O2 : list Z) : list Z :=
  match O1, O2 with
  | [], _ => O2
  | _, [] => O1
  | _, _ => sums O1 O2
  end.

(** The sums of all face combinations of the dice of [l], one entry per
    combination; dice without faces are passed over. *)
Definition outcomes (l : list elem) : list Z :=
  foldr (λ die acc, msum (faces_of die) acc) [] l.

(** [d] counts the occurrences in [O]: its keys are the members of [O],
    each mapped to its multiplicity. *)
Definition represents (d : dict) (O : list Z) : Prop :=
  ∀ s, (is_Some (d !! s) ↔ s ∈ O) ∧ get d s = count s O.

(** Two lists with the same multiplicities. *)
Definition same_counts (O1 O2 : list Z) : Prop := ∀ s, count s O1 = count s O2.

(** A split point that leaves both parts shorter. *)
Definition valid_split (split : nat → nat) : Prop :=
  ∀ n, (2 ≤ n → 0 < split n < n)%nat.

(** The ceiling of half the length. *)
Definition half_up (n : nat) : nat := ((n + 1) / 2)%nat.

(** A die with at least one face. *)
Definition has_faces (die : elem) : Prop := faces_of die ≠ [].

#[global] Instance has_faces_dec die : Decision (has_faces die).
Proof. unfold has_faces. apply _. Defined.

(** [sum(P.values())] on fractions: the sum starts from [0] and every
    addition yields a fraction in lowest terms. *)
Definition sum_fractions (P : gmap Z Q) : Q :=
  foldl (λ acc q, Qred (acc + q)) 0%Q (values P).

(** What [diceProb] returns when there is no outcome at all. *)
Definition no_probabilities {float} (exact : bool) : prob_dict float :=
  if exact then Fractions ∅ else Floats ∅.

(** A stand-in for the floats where one is needed to run the model: the
    quotient itself, without rounding. *)
Definition exact_quotient (n d : Z) : Q := (inject_Z n / inject_Z d)%Q.

(** The result component of a run. *)
Definition res {A B C} (x : A * B * C) : A := x.1.1.
(** The caller's object after a run. *)
Definition after {A B C} (x : A * B * C) : B := x.1.2.

(** The sum of a list of rationals. *)
Definition Qsum (l : list Q) : Q := foldr Qplus 0%Q l.

(** All counts of a dictionary are positive, as those of an
    outcome-count mapping are. *)
Definition positive_counts (d : dict) : Prop :=
  ∀ k v, d !! k = Some v → 0 < v.

(** The outcomes a dictionary counts, each key as often as its count. *)
Definition expand (d : dict) : list Z :=
  k ← keys d; replicate (Z.to_nat (d !!! k)) k.

(** [diceBarPlot], up to the call of [plt.bar]: the result is the pair
    of arguments [hist.keys()], [hist.values()] of that call, both in
    the order of one iteration of [hist]. *)
Definition diceBarPlot (diceList : arg) (g : rng)
  : result (list Z * list Z) * arg * rng :=
  match as_list diceList with
  | None => (Raise (invalid_argument "diceHist"), diceList, g)
  | Some _ =>
    let '(r, diceList', g') := diceDict diceList g in
    (result_map (λ hist, (keys hist, values hist)) r, diceList', g')
  end.

(** What [roll] gets past: a positive integer of at most [sys.maxsize],
    a list with at least one face, or a string, which it passes over. *)
Definition rollable (die : elem) : Prop :=
  match die with
  | EInt n => 0 < n ≤ maxsize
  | EList faces => faces ≠ []
  | EStr _ => True
  end.

(** A die whose number of sides, if it is given by one, is at most
    [sys.maxsize]. *)
Definition small_die (die : elem) : Prop :=
  match die with
  | EInt n => n ≤ maxsize
  | _ => True
  end.

#[global] Instance small_die_dec die : Decision (small_die die).
Proof. destruct die; simpl; apply _. Defined.

#[global] Instance rollable_dec die : Decision (rollable die).
Proof. destruct die; simpl; apply _. Defined.

(** The dictionary of one valid die. *)
Definition die_dict (die : elem) : dict :=
  match die with
  | EInt n => uniform_dict n
  | EList faces => explicit_dict faces
  | EStr _ => ∅
  end.

(** All ways to pick one face from each die of [l], in the order of the
    dice. *)
Definition combos (l : list elem) : list (list Z) :=
  foldr (λ die acc, a ← faces_of die; (λ c, a :: c) <$> acc) [[]] l.

(** * Properties of the merge *)

Section sums.
Lemma foldl_add_acc (l : list Z) (a : Z) : foldl Z.add a l = a + sum_list l.
Proof.
  unfold sum_list. revert a. induction l as [|x l IH]; intros a; simpl; [lia|].
  rewrite (IH (a + x)), (IH (0 + x)). lia.
Qed.

Lemma sum_list_nil : sum_list [] = 0.
Proof. reflexivity. Qed.

Lemma sum_list_cons x l : sum_list (x :: l) = x + sum_list l.
Proof. unfold sum_list at 1. simpl. rewrite foldl_add_acc. lia. Qed.

Lemma sum_list_app l1 l2 : sum_list (l1 ++ l2) = sum_list l1 + sum_list l2.
Proof.
  induction l1 as [|x l1 IH]; simpl; [rewrite sum_list_nil; lia|].
  rewrite !sum_list_cons, IH. lia.
Qed.

Lemma sum_list_perm l1 l2 : l1 ≡ₚ l2 → sum_list l1 = sum_list l2.
Proof.
  induction 1; rewrite ?sum_list_cons; lia.
Qed.
End sums.

#[global] Instance sum_list_proper : Proper ((≡ₚ) ==> (=)) sum_list.
Proof. intros ???. by apply sum_list_perm. Qed.

Section wsum.
Context {A : Type}.
Implicit Types (f g : A → Z) (l : list A).

Lemma wsum_nil f : wsum f [] = 0.
Proof. reflexivity. Qed.

Lemma wsum_cons f x l : wsum f (x :: l) = f x + wsum f l.
Proof. unfold wsum. simpl. apply sum_list_cons. Qed.

Lemma wsum_app f l1 l2 : wsum f (l1 ++ l2) = wsum f l1 + wsum f l2.
Proof. unfold wsum. rewrite fmap_app. apply sum_list_app. Qed.

Lemma wsum_perm f l1 l2 : l1 ≡ₚ l2 → wsum f l1 = wsum f l2.
Proof. intros H. unfold wsum. by rewrite H. Qed.

Lemma wsum_ext f g l : (∀ x, x ∈ l → f x = g x) → wsum f l = wsum g l.
Proof.
  induction l as [|x l IH]; intros H; [done|].
  rewrite !wsum_cons, H, IH; [done| |left].
  intros y Hy. apply H. by right.
Qed.

Lemma wsum_zero l : wsum (λ _, 0) l = 0.
Proof. induction l as [|x l IH]; [done|]. rewrite wsum_cons, IH. lia. Qed.

Lemma wsum_plus f g l : wsum (λ x, f x + g x) l = wsum f l + wsum g l.
Proof.
  induction l as [|x l IH]; [done|]. rewrite !wsum_cons, IH. lia.
Qed.

Lemma wsum_scale c f l : wsum (λ x, c * f x) l = c * wsum f l.
Proof.
  induction l as [|x l IH]; [rewrite !wsum_nil; lia|].
  rewrite !wsum_cons, IH. lia.
Qed.

Lemma wsum_scale_r c f l : wsum (λ x, f x * c) l = wsum f l * c.
Proof.
induction l as [|x l IH]; [rewrite !wsum_nil; lia|].
rewrite !wsum_cons, IH. lia.
Qed.

Lemma wsum_nonneg f l : (∀ x, x ∈ l → 0 ≤ f x) → 0 ≤ wsum f l.
Proof.
  induction l as [|x l IH]; intros H; [done|].
  rewrite wsum_cons. pose proof (H x (list_elem_of_here _ _)).
  assert (0 ≤ wsum f l); [|lia].
  apply IH. intros y Hy. apply H. by right.
Qed.
End wsum.

Lemma wsum_swap {A B} (f : A → B → Z) (l1 : list A) (l2 : list B) :
  wsum (λ a, wsum (f a) l2) l1 = wsum (λ b, wsum (λ a, f a b) l1) l2.
Proof.
  induction l1 as [|a l1 IH].
  - rewrite wsum_nil. symmetry. apply wsum_zero.
  - rewrite wsum_cons, IH, <- wsum_plus. apply wsum_ext. intros b _.
    by rewrite wsum_cons.
Qed.

Lemma sum_list_bind {A} (f : A → list Z) (l : list A) :
  sum_list (l ≫= f) = wsum (λ a, sum_list (f a)) l.
Proof.
  induction l as [|a l IH]; [done|].
  rewrite bind_cons, sum_list_app, IH, wsum_cons. done.
Qed.

Lemma wsum_ind_NoDup (f : Z → Z) (ks : list Z) (x : Z) :
  NoDup ks → wsum (λ k, ind k x * f k) ks = if decide (x ∈ ks) then f x else 0.
Proof.
  induction 1 as [|k ks Hk Hnd IH]; [done|].
  rewrite wsum_cons, IH. unfold ind.
  destruct (decide (k = x)) as [->|Hne].
  - rewrite (decide_False (P := x ∈ ks)) by done.
    rewrite (decide_True (P := x ∈ x :: ks)) by left. lia.
  - destruct (decide (x ∈ ks)).
    + rewrite (decide_True (P := x ∈ k :: ks)) by (by right). lia.
    + rewrite (decide_False (P := x ∈ k :: ks)); [lia|].
      by intros [->|?]%elem_of_cons.
Qed.

(** ** The loops of [_mergeDiceDicts], over arbitrary key lists *)

Lemma lookup_get (d : dict) (s : Z) :
  d !! s = if decide (is_Some (d !! s)) then Some (get d s) else None.
Proof.
  unfold get. destruct (decide (is_Some (d !! s))) as [[v ->]|H]; [done|].
  destruct (d !! s); [|done]. destruct H. eauto.
Qed.

Lemma dict_eq_get (d d' : dict) :
  (∀ s, is_Some (d !! s) ↔ is_Some (d' !! s)) → (∀ s, get d s = get d' s) → d = d'.
Proof.
  intros Hs Hg. apply map_eq. intros s.
  rewrite (lookup_get d), (lookup_get d'), Hg.
  destruct (decide (is_Some (d !! s))) as [H|H].
  - rewrite decide_True; [done|]. by apply Hs.
  - rewrite decide_False; [done|]. by rewrite <- Hs.
Qed.

Section merge_loops.
Variables d1 d2 : dict.

Lemma merge_step_get k1 acc k2 s :
  get (merge_step d1 d2 k1 acc k2) s = get acc s + term d1 d2 s k1 k2.
Proof.
  unfold merge_step, term, ind, get. simpl.
  destruct (decide (k1 + k2 = s)) as [->|Hne].
  - rewrite lookup_insert_eq. simpl. lia.
  - rewrite lookup_insert_ne by done. lia.
Qed.

Lemma merge_step_is_Some k1 acc k2 s :
  is_Some (merge_step d1 d2 k1 acc k2 !! s) ↔ is_Some (acc !! s) ∨ k1 + k2 = s.
Proof.
  unfold merge_step. simpl. destruct (decide (k1 + k2 = s)) as [->|Hne].
  - rewrite lookup_insert_eq. split; eauto.
  - rewrite lookup_insert_ne by done. split; [eauto|]. by intros [?|?].
Qed.

Lemma merge_inner_get ks2 acc k1 s :
  get (merge_inner d1 d2 ks2 acc k1) s = get acc s + wsum (term d1 d2 s k1) ks2.
Proof.
  unfold merge_inner. revert acc.
  induction ks2 as [|k2 ks2 IH]; intros acc; simpl.
  - rewrite wsum_nil. lia.
  - rewrite IH, merge_step_get, wsum_cons. lia.
Qed.

Lemma merge_inner_is_Some ks2 acc k1 s :
  is_Some (merge_inner d1 d2 ks2 acc k1 !! s) ↔
  is_Some (acc !! s) ∨ ∃ k2, k2 ∈ ks2 ∧ k1 + k2 = s.
Proof.
  unfold merge_inner. revert acc.
  induction ks2 as [|k2 ks2 IH]; intros acc; simpl.
  - split; [eauto|]. intros [?|(k2 & Hk2 & _)]; [done|]. by apply elem_of_nil in Hk2.
  - rewrite IH, merge_step_is_Some. split.
    + intros [[?|?]|(k & Hk & ?)]; [by left| |].
      * right. exists k2. split; [left|done].
      * right. exists k. split; [by right|done].
    + intros [?|(k & Hk & ?)]; [by left; left|].
      apply elem_of_cons in Hk as [->|Hk]; [by left; right|].
      right. eauto.
Qed.

Lemma merge_loop_get ks1 ks2 acc s :
  get (merge_loop d1 d2 ks1 ks2 acc) s =
  get acc s + wsum (λ k1, wsum (term d1 d2 s k1) ks2) ks1.
Proof.
  unfold merge_loop. revert acc.
  induction ks1 as [|k1 ks1 IH]; intros acc; simpl.
  - rewrite wsum_nil. lia.
  - rewrite IH, merge_inner_get, wsum_cons. lia.
Qed.

Lemma merge_loop_is_Some ks1 ks2 acc s :
  is_Some (merge_loop d1 d2 ks1 ks2 acc !! s) ↔
  is_Some (acc !! s) ∨ ∃ k1 k2, k1 ∈ ks1 ∧ k2 ∈ ks2 ∧ k1 + k2 = s.
Proof.
  unfold merge_loop. revert acc.
  induction ks1 as [|k1 ks1 IH]; intros acc; simpl.
  - split; [eauto|]. intros [?|(k1 & k2 & Hk1 & _)]; [done|].
    by apply elem_of_nil in Hk1.
  - rewrite IH, merge_inner_is_Some. split.
    + intros [[?|(k2 & ? & ?)]|(k & k2 & Hk & ? & ?)]; [by left| |].
      * right. exists k1, k2. split; [left|done].
      * right. exists k, k2. split; [by right|done].
    + intros [?|(k & k2 & Hk & ? & ?)]; [by left; left|].
      apply elem_of_cons in Hk as [->|Hk]; [left; right; eauto|].
      right. eauto 6.
Qed.

(** The order in which the keys are visited does not matter: a Python
    dictionary iterates in insertion order, the model in the order of
    [map_to_list]. *)
Lemma merge_loop_perm ks1 ks1' ks2 ks2' acc :
  ks1 ≡ₚ ks1' → ks2 ≡ₚ ks2' →
  merge_loop d1 d2 ks1 ks2 acc = merge_loop d1 d2 ks1' ks2' acc.
Proof.
  intros H1 H2. apply dict_eq_get; intros s.
  - rewrite !merge_loop_is_Some.
    by setoid_rewrite H1; setoid_rewrite H2.
  - rewrite !merge_loop_get. f_equal.
    rewrite (wsum_perm _ _ _ H1). apply wsum_ext. intros k1 _.
    by apply wsum_perm.
Qed.
End merge_loops.

Lemma size_eqb_0 {V} (d : gmap Z V) : (size d =? 0)%nat = bool_decide (d = ∅).
Proof.
  destruct (Nat.eqb_spec (size d) 0) as [H|H].
  - apply map_size_empty_iff in H. by rewrite bool_decide_eq_true_2.
  - rewrite bool_decide_eq_false_2; [done|]. intros ->. by rewrite map_size_empty in H.
Qed.

Lemma elem_of_keys {V} (d : gmap Z V) (k : Z) : k ∈ keys d ↔ is_Some (d !! k).
Proof.
  unfold keys. rewrite list_elem_of_fmap. split.
  - intros ([k' v] & -> & H). apply elem_of_map_to_list in H. eauto.
  - intros [v H]. exists (k, v). split; [done|]. by apply elem_of_map_to_list.
Qed.

Lemma NoDup_keys {V} (d : gmap Z V) : NoDup (keys d).
Proof. apply NoDup_fst_map_to_list. Qed.

Lemma dict_nonempty_lookup {V} (d : gmap Z V) (k : Z) (v : V) :
  d !! k = Some v → d ≠ ∅.
Proof. intros H ->. by rewrite lookup_empty in H. Qed.

Lemma merge_empty_l d : _mergeDiceDicts ∅ d = d.
Proof. done. Qed.

Lemma merge_empty_r d : _mergeDiceDicts d ∅ = d.
Proof.
  unfold _mergeDiceDicts. rewrite !size_eqb_0.
  case_bool_decide; [done|]. by rewrite bool_decide_eq_true_2.
Qed.

Lemma merge_nonempty d1 d2 :
  d1 ≠ ∅ → d2 ≠ ∅ →
  _mergeDiceDicts d1 d2 = merge_loop d1 d2 (keys d1) (keys d2) ∅.
Proof.
  intros H1 H2. unfold _mergeDiceDicts. rewrite !size_eqb_0.
  by rewrite !bool_decide_eq_false_2.
Qed.

Lemma conv_sum_wsum A B s :
  conv_sum A B s = wsum (λ a, wsum (term A B s a) (keys B)) (keys A).
Proof.
  unfold conv_sum. rewrite sum_list_bind. apply wsum_ext. intros a _.
  rewrite sum_list_bind. apply wsum_ext. intros b _.
  unfold term, ind. destruct (decide (a + b = s)).
  - rewrite sum_list_cons, sum_list_nil. lia.
  - rewrite sum_list_nil. lia.
Qed.

(** C1. For non-empty [A] and [B] the merge has as keys exactly the sums
    [a + b] of a key of [A] and a key of [B], and maps each key [s] to the
    sum of [A[a]*B[b]] over the key pairs with [a + b = s]; when either
    mapping is empty the merge returns the other one unchanged. *)
Theorem mergeDiceDicts_convolution (A B : dict) :
  (A ≠ ∅ → B ≠ ∅ → ∀ s : Z,
     (s ∈ dom (_mergeDiceDicts A B) ↔ pair_sums_to A B s) ∧
     (s ∈ dom (_mergeDiceDicts A B) →
      _mergeDiceDicts A B !! s = Some (conv_sum A B s))) ∧
  (A = ∅ → _mergeDiceDicts A B = B) ∧
  (B = ∅ → _mergeDiceDicts A B = A).
Proof.
  split; [|split].
  - intros HA HB s. rewrite merge_nonempty by done.
    rewrite elem_of_dom, merge_loop_is_Some. split.
    + unfold pair_sums_to. setoid_rewrite elem_of_dom.
      setoid_rewrite elem_of_keys. rewrite lookup_empty. split.
      * intros [[? [=]]|?]; done.
      * eauto.
    + intros Hs. rewrite lookup_get, decide_True by (by apply merge_loop_is_Some).
      rewrite merge_loop_get, conv_sum_wsum. unfold get.
      rewrite lookup_empty. simpl. f_equal.
  - intros ->. apply merge_empty_l.
  - intros ->. apply merge_empty_r.
Qed.

(** The theorem at two dice with the faces 1 and 2. *)
Lemma mergeDiceDicts_convolution_witness :
  (uniform_dict 2 ≠ ∅ ∧ uniform_dict 2 ≠ ∅) ∧
  _mergeDiceDicts (uniform_dict 2) (uniform_dict 2) !! 3 =
    Some (conv_sum (uniform_dict 2) (uniform_dict 2) 3).
Proof.
  assert (HA : uniform_dict 2 ≠ ∅) by (by apply (dict_nonempty_lookup _ 1 1)).
  split; [done|].
  destruct (mergeDiceDicts_convolution (uniform_dict 2) (uniform_dict 2)) as [H _].
  apply (H HA HA 3). apply elem_of_dom. vm_compute. eauto.
Defined.

(** * The generator: [shuffle] permutes, [choice] picks a member *)

Lemma swap_perm {A} (i j : nat) (x : list A) : swap i j x ≡ₚ x.
Proof.
  unfold swap. destruct (x !! i) as [xi|] eqn:Hi; [|done].
  destruct (x !! j) as [xj|] eqn:Hj; [|done].
  by apply Permutation_insert_swap.
Qed.

Lemma shuffle_loop_perm {A} (i : nat) (x : list A) (g : rng) :
  (shuffle_loop i x g).1 ≡ₚ x.
Proof.
  revert x g. induction i as [|i IH]; intros x g; [done|].
  cbn [shuffle_loop]. destruct (randbelow (S (S i)) g) as [j g'].
  rewrite IH. apply swap_perm.
Qed.

Lemma shuffle_perm {A} (x : list A) (g : rng) : (shuffle x g).1 ≡ₚ x.
Proof. apply shuffle_loop_perm. Qed.

Lemma randbelow_lt n g : (0 < n)%nat → ((randbelow n g).1 < n)%nat.
Proof.
  intros Hn. destruct g as [|r g]; simpl; [done|].
  apply Nat.mod_upper_bound. lia.
Qed.

Lemma choice_Ok {A} (seq : list A) (g : rng) :
  seq ≠ [] → ∃ a, (choice seq g).1 = Ok a ∧ a ∈ seq.
Proof.
  intros Hne. unfold choice. destruct seq as [|a0 seq0]; [done|].
  set (seq := a0 :: seq0).
  pose proof (randbelow_lt (length seq) g ltac:(simpl; lia)) as Hlt.
  destruct (randbelow (length seq) g) as [i g']. simpl in Hlt.
  destruct (lookup_lt_is_Some_2 seq i Hlt) as [a Ha].
  exists a. cbn [fst]. rewrite Ha. split; [done|].
  apply list_elem_of_lookup. eauto.
Qed.

(** * Dictionaries built by comprehension *)

Lemma foldl_insert_lookup {V} (f : Z → V) (ks : list Z) (acc : gmap Z V) (k : Z) :
  foldl (λ d k, <[k := f k]> d) acc ks !! k =
  if decide (k ∈ ks) then Some (f k) else acc !! k.
Proof.
  revert acc. induction ks as [|k0 ks IH]; intros acc.
  - destruct (decide (k ∈ [])) as [H|H]; [|done]. by apply elem_of_nil in H.
  - cbn [foldl]. rewrite IH. destruct (decide (k ∈ ks)) as [Hin|Hnin].
    + rewrite decide_True; [done|]. by right.
    + destruct (decide (k = k0)) as [->|Hne].
      * rewrite lookup_insert_eq. rewrite decide_True; [done|]. left.
      * rewrite lookup_insert_ne by done.
        rewrite decide_False; [done|]. by intros [?|?]%elem_of_cons.
Qed.

Lemma dict_comp_lookup {V} (f : Z → V) (ks : list Z) (k : Z) :
  dict_comp f ks !! k = if decide (k ∈ ks) then Some (f k) else None.
Proof. unfold dict_comp. by rewrite foldl_insert_lookup, lookup_empty. Qed.

Lemma dict_comp_perm {V} (f : Z → V) (ks ks' : list Z) :
  ks ≡ₚ ks' → dict_comp f ks = dict_comp f ks'.
Proof.
  intros H. apply map_eq. intros k. rewrite !dict_comp_lookup.
  destruct (decide (k ∈ ks)) as [Hin|Hnin].
  - rewrite decide_True; [done|]. by rewrite <- H.
  - rewrite decide_False; [done|]. by rewrite <- H.
Qed.

Lemma dict_comp_raise_Ok {V} (f : Z → V) (ks : list Z) (acc : gmap Z V) :
  dict_comp_raise (λ x, Ok (f x)) ks acc = Ok (foldl (λ d k, <[k := f k]> d) acc ks).
Proof. revert acc. induction ks as [|k ks IH]; intros acc; simpl; [done|]. apply IH. Qed.

Lemma dict_comp_raise_Raise {V} (f : Z → result V) (e : exn) (ks : list Z) (acc : gmap Z V) :
  (∀ x, f x = Raise e) → ks ≠ [] → dict_comp_raise f ks acc = Raise e.
Proof. intros Hf Hne. destruct ks as [|k ks]; [done|]. simpl. by rewrite Hf. Qed.

Lemma foldl_insert_items (items : list (Z * Z)) (acc : dict) :
  NoDup items.*1 →
  foldl (λ d kv, <[kv.1 := kv.2]> d) acc items = list_to_map items ∪ acc.
Proof.
  revert acc. induction items as [|[k v] items IH]; intros acc Hnd; simpl.
  - by rewrite (left_id_L ∅ (∪)).
  - apply NoDup_cons in Hnd as [Hk Hnd]. rewrite IH by done.
    rewrite <- insert_union_l. apply symmetry, insert_union_r.
    by apply not_elem_of_list_to_map_1.
Qed.

Lemma dict_of_sorted_items (d : dict) : dict_of_items (sorted_items d) = d.
Proof.
  unfold dict_of_items, sorted_items.
  assert (Hp : merge_sort item_le (map_to_list d) ≡ₚ map_to_list d)
    by apply merge_sort_Permutation.
  rewrite foldl_insert_items.
  - rewrite (right_id_L ∅ (∪)).
    rewrite (list_to_map_proper _ (map_to_list d)); [apply list_to_map_to_list| |done].
    rewrite Hp. apply NoDup_fst_map_to_list.
  - rewrite Hp. apply NoDup_fst_map_to_list.
Qed.

Lemma sorted_keys_perm {V} (d : gmap Z V) : sorted_keys d ≡ₚ keys d.
Proof. apply merge_sort_Permutation. Qed.

(** * Counting occurrences *)

Lemma ind_sym x y : ind x y = ind y x.
Proof. unfold ind. repeat case_decide; congruence. Qed.

Lemma ind_nonneg x y : 0 ≤ ind x y.
Proof. unfold ind. case_decide; lia. Qed.

Lemma count_nil x : count x [] = 0.
Proof. done. Qed.

Lemma count_cons x y l : count x (y :: l) = ind y x + count x l.
Proof.
  unfold count, ind. rewrite filter_cons.
  destruct (decide (y = x)); simpl; lia.
Qed.

Lemma count_wsum x l : count x l = wsum (λ y, ind y x) l.
Proof.
  induction l as [|y l IH]; [done|]. by rewrite count_cons, wsum_cons, IH.
Qed.

Lemma count_app x l1 l2 : count x (l1 ++ l2) = count x l1 + count x l2.
Proof. by rewrite !count_wsum, wsum_app. Qed.

Lemma count_nonneg x l : 0 ≤ count x l.
Proof. unfold count. lia. Qed.

Lemma count_pos_iff x l : 0 < count x l ↔ x ∈ l.
Proof.
  induction l as [|y l IH].
  - rewrite count_nil. split; [lia|]. by intros ?%elem_of_nil.
  - rewrite count_cons, elem_of_cons. pose proof (count_nonneg x l).
    unfold ind. destruct (decide (y = x)) as [->|Hne].
    + split; [by left|lia].
    + rewrite Z.add_0_l, IH. split; [by right|]. by intros [?|?].
Qed.

Lemma count_not_elem x l : x ∉ l → count x l = 0.
Proof.
  intros H. pose proof (count_nonneg x l).
  destruct (decide (0 < count x l)) as [Hp|]; [|lia].
  by apply count_pos_iff in Hp.
Qed.

Lemma count_NoDup x l : NoDup l → count x l = if decide (x ∈ l) then 1 else 0.
Proof.
  intros Hnd. rewrite count_wsum.
  rewrite (wsum_ext _ (λ k, ind k x * 1)) by (intros; lia).
  by rewrite wsum_ind_NoDup.
Qed.

Lemma wsum_fmap {A B} (f : B → Z) (g : A → B) (l : list A) :
  wsum f (g <$> l) = wsum (λ a, f (g a)) l.
Proof. unfold wsum. by rewrite <- list_fmap_compose. Qed.

Lemma wsum_const {A} (c : Z) (l : list A) : wsum (λ _, c) l = c * Z.of_nat (length l).
Proof.
  induction l as [|x l IH]; [rewrite wsum_nil; simpl; lia|].
  rewrite wsum_cons, IH. simpl length. lia.
Qed.

(** A sum over a list is the sum over its distinct members weighted by
    their multiplicities. *)
Lemma wsum_count (f : Z → Z) (ks O : list Z) :
  NoDup ks → (∀ x, x ∈ O → x ∈ ks) →
  wsum (λ k, count k O * f k) ks = wsum f O.
Proof.
  intros Hnd. induction O as [|x O IH]; intros Hsub.
  - rewrite wsum_nil. rewrite (wsum_ext _ (λ _, 0)); [apply wsum_zero|].
    intros k _. rewrite count_nil. lia.
  - rewrite wsum_cons, <- IH by (intros y Hy; apply Hsub; by right).
    rewrite (wsum_ext _ (λ k, ind k x * f k + count k O * f k)).
    + rewrite wsum_plus, wsum_ind_NoDup by done.
      rewrite decide_True; [done|]. apply Hsub. left.
    + intros k _. rewrite count_cons, (ind_sym x k). lia.
Qed.

Lemma count_bind {A} (f : A → list Z) (l : list A) (s : Z) :
  count s (l ≫= f) = wsum (λ a, count s (f a)) l.
Proof.
  induction l as [|a l IH]; [done|].
  by rewrite bind_cons, count_app, IH, wsum_cons.
Qed.

Lemma count_sums s O1 O2 :
  count s (sums O1 O2) = wsum (λ a, wsum (λ b, ind (a + b) s) O2) O1.
Proof.
  unfold sums. rewrite count_bind. apply wsum_ext. intros a _.
  by rewrite count_wsum, wsum_fmap.
Qed.

Lemma elem_of_sums s O1 O2 :
  s ∈ sums O1 O2 ↔ ∃ a b, a ∈ O1 ∧ b ∈ O2 ∧ a + b = s.
Proof.
  unfold sums. rewrite list_elem_of_bind. split.
  - intros (a & Hs & Ha). apply list_elem_of_fmap in Hs as (b & -> & Hb). eauto.
  - intros (a & b & Ha & Hb & <-). exists a. split; [|done].
    apply list_elem_of_fmap. eauto.
Qed.

Lemma length_sums O1 O2 : length (sums O1 O2) = (length O1 * length O2)%nat.
Proof.
  unfold sums. induction O1 as [|a O1 IH]; [done|].
  rewrite bind_cons, length_app, length_fmap, IH. simpl. lia.
Qed.

Lemma sums_nonempty O1 O2 : O1 ≠ [] → O2 ≠ [] → sums O1 O2 ≠ [].
Proof.
  intros H1 H2 H. apply (f_equal length) in H. rewrite length_sums in H.
  destruct O1, O2; simpl in *; try done.
Qed.

Lemma msum_nil_r O : msum O [] = O.
Proof. by destruct O. Qed.

Lemma msum_nonempty O1 O2 : O1 ≠ [] → O2 ≠ [] → msum O1 O2 = sums O1 O2.
Proof. by destruct O1, O2. Qed.

Lemma same_counts_nil O : same_counts O [] → O = [].
Proof.
  intros H. destruct O as [|x O]; [done|]. specialize (H x).
  rewrite count_cons, count_nil in H. pose proof (count_nonneg x O).
  unfold ind in H. rewrite decide_True in H by done. lia.
Qed.

#[global] Instance same_counts_equiv : Equivalence same_counts.
Proof.
  split.
  - by intros O s.
  - intros O1 O2 H s. by rewrite H.
  - intros O1 O2 O3 H1 H2 s. by rewrite H1.
Qed.

Lemma same_counts_elem O1 O2 s : same_counts O1 O2 → s ∈ O1 ↔ s ∈ O2.
Proof. intros H. by rewrite <- !count_pos_iff, H. Qed.

Lemma same_counts_perm O1 O2 : O1 ≡ₚ O2 → same_counts O1 O2.
Proof. intros H s. rewrite !count_wsum. by apply wsum_perm. Qed.

Lemma same_counts_length O1 O2 : same_counts O1 O2 → length O1 = length O2.
Proof.
  revert O2. induction O1 as [|x O1 IH]; intros O2 H.
  - symmetry in H. by rewrite (same_counts_nil _ H).
  - assert (Hx : x ∈ O2).
    { apply (same_counts_elem _ _ x H). left. }
    apply list_elem_of_split in Hx as (l1 & l2 & ->).
    rewrite length_app. simpl. rewrite Nat.add_succ_r, <- length_app. f_equal.
    apply IH. intros s. specialize (H s).
    rewrite count_app, !count_cons, ?count_app in *. lia.
Qed.

(** * Dictionaries that count a list of outcomes *)

Lemma represents_empty : represents ∅ [].
Proof.
  intros s. unfold get. rewrite lookup_empty. split; [|done].
  split; [by intros [? ?]|by intros ?%elem_of_nil].
Qed.

Lemma represents_same_counts d O O' :
  represents d O → same_counts O O' → represents d O'.
Proof.
  intros H Hc s. destruct (H s) as [H1 H2].
  by rewrite <- (same_counts_elem _ _ s Hc), <- Hc.
Qed.

Lemma represents_unique d d' O :
  represents d O → represents d' O → d = d'.
Proof.
  intros H H'. apply dict_eq_get; intros s.
  - destruct (H s) as [-> _], (H' s) as [-> _]. done.
  - destruct (H s) as [_ ->], (H' s) as [_ ->]. done.
Qed.

Lemma represents_nil d : represents d [] → d = ∅.
Proof. intros H. apply (represents_unique _ _ [] H), represents_empty. Qed.

Lemma represents_nil_iff d O : represents d O → d = ∅ ↔ O = [].
Proof.
  intros H. split.
  - intros ->. destruct O as [|x O]; [done|].
    destruct (H x) as [Hx _]. rewrite lookup_empty in Hx.
    destruct (proj2 Hx) as [? [=]]. left.
  - intros ->. by apply represents_nil.
Qed.

Lemma represents_keys d O k : represents d O → k ∈ keys d ↔ k ∈ O.
Proof. intros H. rewrite elem_of_keys. apply H. Qed.

Lemma lookup_total_get (d : dict) k : k ∈ keys d → d !!! k = get d k.
Proof.
  intros [v Hv]%elem_of_keys. unfold get.
  by rewrite (lookup_total_correct _ _ _ Hv), Hv.
Qed.

Lemma represents_lookup_total d O k :
  represents d O → k ∈ keys d → d !!! k = count k O.
Proof. intros H Hk. rewrite lookup_total_get by done. apply H. Qed.

Lemma represents_positive d O k v : represents d O → d !! k = Some v → 0 < v.
Proof.
  intros H Hk. destruct (H k) as [H1 H2]. unfold get in H2. rewrite Hk in H2.
  simpl in H2. subst v. apply count_pos_iff, H1. eauto.
Qed.

Lemma represents_dict_comp O ks :
  (∀ x, x ∈ ks ↔ x ∈ O) → represents (dict_comp (λ x, count x O) ks) O.
Proof.
  intros Hks s. unfold get. rewrite dict_comp_lookup.
  destruct (decide (s ∈ ks)) as [Hin|Hnin]; simpl.
  - split; [|done]. split; [intros _; by apply Hks|eauto].
  - split.
    + split; [by intros [? ?]|]. intros ?%Hks. done.
    + symmetry. apply count_not_elem. by rewrite <- Hks.
Qed.

Lemma represents_explicit faces : represents (explicit_dict faces) faces.
Proof.
  apply represents_dict_comp. intros x.
  by rewrite elem_of_elements, elem_of_list_to_set.
Qed.

Lemma represents_uniform n : represents (uniform_dict n) (range 1 (n + 1)).
Proof.
  unfold uniform_dict.
  assert (Hnd : NoDup (range 1 (n + 1))) by apply NoDup_seqZ.
  intros s. unfold get. rewrite dict_comp_lookup, (count_NoDup _ _ Hnd).
  destruct (decide (s ∈ range 1 (n + 1))); simpl.
  - split; [|done]. split; eauto.
  - split; [|done]. split; [by intros [? ?]|done].
Qed.

Lemma values_keys (d : dict) : values d = (λ k, d !!! k) <$> keys d.
Proof.
  unfold values, keys. rewrite <- list_fmap_compose.
  apply list_fmap_ext. intros i [k v] Hkv. simpl.
  apply list_elem_of_lookup_2, elem_of_map_to_list in Hkv. by rewrite (lookup_total_correct _ _ _ Hkv).
Qed.

Lemma sum_values_wsum (d : dict) : sum_values d = wsum (λ k, d !!! k) (keys d).
Proof. unfold sum_values, wsum. by rewrite values_keys. Qed.

(** The total of the counts is the number of outcomes counted. *)
Lemma represents_sum_values d O :
  represents d O → sum_values d = Z.of_nat (length O).
Proof.
  intros H. rewrite sum_values_wsum.
  rewrite (wsum_ext _ (λ k, count k O * 1)).
  - rewrite wsum_count; [rewrite wsum_const; lia|apply NoDup_keys|].
    intros x Hx. by apply (represents_keys d O).
  - intros k Hk. rewrite (represents_lookup_total d O) by done. lia.
Qed.

Lemma represents_merge_nonempty d1 d2 O1 O2 :
  represents d1 O1 → represents d2 O2 → O1 ≠ [] → O2 ≠ [] →
  represents (_mergeDiceDicts d1 d2) (sums O1 O2).
Proof.
  intros H1 H2 Hn1 Hn2.
  rewrite merge_nonempty
    by (by rewrite (represents_nil_iff _ _ H1) || by rewrite (represents_nil_iff _ _ H2)).
  intros s. split.
  - rewrite merge_loop_is_Some, lookup_empty, elem_of_sums.
    setoid_rewrite (represents_keys _ _ _ H1).
    setoid_rewrite (represents_keys _ _ _ H2).
    split; [|eauto]. by intros [[? [=]]|?].
  - rewrite merge_loop_get, count_sums. unfold get at 1.
    rewrite lookup_empty. simpl.
    rewrite <- (wsum_count _ (keys d1) O1);
      [|apply NoDup_keys|intros x; by rewrite (represents_keys _ _ _ H1)].
    apply wsum_ext. intros k1 Hk1.
    rewrite <- (wsum_count _ (keys d2) O2);
      [|apply NoDup_keys|intros x; by rewrite (represents_keys _ _ _ H2)].
    rewrite <- wsum_scale. apply wsum_ext. intros k2 Hk2. unfold term.
    rewrite (represents_lookup_total _ _ _ H1 Hk1).
    rewrite (represents_lookup_total _ _ _ H2 Hk2). lia.
Qed.

Lemma represents_merge d1 d2 O1 O2 :
  represents d1 O1 → represents d2 O2 →
  represents (_mergeDiceDicts d1 d2) (msum O1 O2).
Proof.
  intros H1 H2. destruct (decide (O1 = [])) as [->|Hn1].
  { by rewrite (represents_nil _ H1), merge_empty_l. }
  destruct (decide (O2 = [])) as [->|Hn2].
  { by rewrite (represents_nil _ H2), merge_empty_r, msum_nil_r. }
  rewrite msum_nonempty by done. by apply represents_merge_nonempty.
Qed.

(** * The algebra of outcome lists: [msum] is commutative and associative
    up to the order of the outcomes, with [[]] as identity *)

Lemma wsum_bind {A} (f : Z → Z) (g : A → list Z) (l : list A) :
  wsum f (l ≫= g) = wsum (λ a, wsum f (g a)) l.
Proof.
  induction l as [|a l IH]; [done|].
  by rewrite bind_cons, wsum_app, IH, wsum_cons.
Qed.

Lemma wsum_sums (f : Z → Z) O1 O2 :
  wsum f (sums O1 O2) = wsum (λ a, wsum (λ b, f (a + b)) O2) O1.
Proof.
  unfold sums. rewrite wsum_bind. apply wsum_ext. intros a _. apply wsum_fmap.
Qed.

Lemma count_sums_shift s O1 O2 :
  count s (sums O1 O2) = wsum (λ a, count (s - a) O2) O1.
Proof.
  rewrite count_sums. apply wsum_ext. intros a _. rewrite count_wsum.
  apply wsum_ext. intros b _. unfold ind. repeat case_decide; lia.
Qed.

Lemma sums_comm O1 O2 : same_counts (sums O1 O2) (sums O2 O1).
Proof.
  intros s. rewrite !count_sums, wsum_swap. apply wsum_ext. intros b _.
  apply wsum_ext. intros a _. by rewrite Z.add_comm.
Qed.

Lemma sums_assoc O1 O2 O3 :
  same_counts (sums (sums O1 O2) O3) (sums O1 (sums O2 O3)).
Proof.
  intros s. rewrite !count_sums, wsum_sums. apply wsum_ext. intros a _.
  rewrite wsum_sums. apply wsum_ext. intros b _.
  apply wsum_ext. intros c _. by rewrite Z.add_assoc.
Qed.

Lemma sums_proper_r O1 O2 O2' :
  same_counts O2 O2' → same_counts (sums O1 O2) (sums O1 O2').
Proof.
  intros H s. rewrite !count_sums_shift. apply wsum_ext. intros a _. apply H.
Qed.

Lemma sums_proper O1 O1' O2 O2' :
  same_counts O1 O1' → same_counts O2 O2' →
  same_counts (sums O1 O2) (sums O1' O2').
Proof.
  intros H1 H2. rewrite (sums_proper_r _ _ _ H2).
  rewrite (sums_comm O1), (sums_comm O1'). by apply sums_proper_r.
Qed.

Lemma same_counts_nil_iff O O' : same_counts O O' → O = [] ↔ O' = [].
Proof.
  intros H. split; intros ->.
  - symmetry in H. by apply same_counts_nil.
  - by apply same_counts_nil.
Qed.

Lemma msum_cases O1 O2 :
  (O1 = [] ∧ msum O1 O2 = O2) ∨
  (O1 ≠ [] ∧ O2 = [] ∧ msum O1 O2 = O1) ∨
  (O1 ≠ [] ∧ O2 ≠ [] ∧ msum O1 O2 = sums O1 O2).
Proof. destruct O1, O2; naive_solver. Qed.

Lemma msum_proper O1 O1' O2 O2' :
  same_counts O1 O1' → same_counts O2 O2' →
  same_counts (msum O1 O2) (msum O1' O2').
Proof.
  intros H1 H2.
  pose proof (same_counts_nil_iff _ _ H1) as E1.
  pose proof (same_counts_nil_iff _ _ H2) as E2.
  destruct (msum_cases O1 O2) as [[? ->]|[(? & ? & ->)|(? & ? & ->)]],
    (msum_cases O1' O2') as [[? ->]|[(? & ? & ->)|(? & ? & ->)]];
    try done; try tauto.
  by apply sums_proper.
Qed.

Lemma msum_comm O1 O2 : same_counts (msum O1 O2) (msum O2 O1).
Proof.
  destruct (msum_cases O1 O2) as [[-> ->]|[(? & -> & ->)|(? & ? & ->)]].
  - by rewrite msum_nil_r.
  - done.
  - rewrite msum_nonempty by done. apply sums_comm.
Qed.

Lemma msum_assoc O1 O2 O3 :
  same_counts (msum (msum O1 O2) O3) (msum O1 (msum O2 O3)).
Proof.
  destruct (decide (O1 = [])) as [->|H1]; [done|].
  destruct (decide (O2 = [])) as [->|H2]; [by rewrite msum_nil_r|].
  destruct (decide (O3 = [])) as [->|H3]; [by rewrite !msum_nil_r|].
  rewrite (msum_nonempty O1 O2), (msum_nonempty O2 O3) by done.
  rewrite !msum_nonempty by auto using sums_nonempty.
  apply sums_assoc.
Qed.

Lemma outcomes_cons die l : outcomes (die :: l) = msum (faces_of die) (outcomes l).
Proof. done. Qed.

Lemma outcomes_singleton die : outcomes [die] = faces_of die.
Proof. by rewrite outcomes_cons, msum_nil_r. Qed.

Lemma outcomes_app l1 l2 :
  same_counts (outcomes (l1 ++ l2)) (msum (outcomes l1) (outcomes l2)).
Proof.
  induction l1 as [|die l1 IH]; [done|].
  rewrite <- app_comm_cons, !outcomes_cons.
  rewrite (msum_proper _ _ _ _ (reflexivity _) IH).
  symmetry. apply msum_assoc.
Qed.

Lemma outcomes_perm l1 l2 : l1 ≡ₚ l2 → same_counts (outcomes l1) (outcomes l2).
Proof.
  induction 1 as [|die l1 l2 _ IH|d1 d2 l|l1 l2 l3 _ IH1 _ IH2].
  - done.
  - rewrite !outcomes_cons. by apply msum_proper.
  - rewrite !outcomes_cons.
    rewrite <- !msum_assoc.
    apply msum_proper; [apply msum_comm|done].
  - by etrans.
Qed.

(** * The recursion of [diceDict] *)

Lemma valid_split_half : valid_split half.
Proof.
  intros n Hn. unfold half. split.
  - apply Nat.div_str_pos. lia.
  - apply Nat.div_lt; lia.
Qed.

Lemma valid_split_half_up : valid_split half_up.
Proof.
  intros n Hn. unfold half_up. split.
  - apply Nat.div_str_pos. lia.
  - apply Nat.Div0.div_lt_upper_bound. lia.
Qed.

Lemma shuffle_length {A} (x : list A) (g : rng) : length (shuffle x g).1 = length x.
Proof. apply Permutation_length, shuffle_perm. Qed.

Lemma split_lengths {A} split (l : list A) :
  valid_split split → (2 ≤ length l)%nat →
  (length (take (split (length l)) l) < length l)%nat ∧
  (length (drop (split (length l)) l) < length l)%nat.
Proof.
  intros Hs Hl. destruct (Hs _ Hl). rewrite length_take, length_drop. lia.
Qed.

(** With a valid split, fuel beyond the length of the list changes
    nothing. *)
Lemma diceDict_fuel_irrelevant split f1 f2 l g :
  valid_split split → (length l ≤ f1)%nat → (length l ≤ f2)%nat →
  diceDict_fuel split f1 l g = diceDict_fuel split f2 l g.
Proof.
  intros Hs. revert f2 l g.
  induction f1 as [|f1 IH]; intros f2 l g H1 H2.
  - destruct l as [|d1 [|d2 l]]; [by destruct f2|simpl in H1; lia..].
  - destruct l as [|d1 [|d2 l]]; [by destruct f2|by destruct f2|].
    destruct f2 as [|f2]; [simpl in H2; lia|].
    cbn [diceDict_fuel].
    pose proof (shuffle_length (d1 :: d2 :: l) g) as Hlen.
    destruct (shuffle (d1 :: d2 :: l) g) as [l1 g1]. cbn [fst] in Hlen.
    destruct (split_lengths split l1 Hs) as [Ht Hd]; [simpl in *; lia|].
    rewrite (IH f2 (take _ l1)) by (simpl in *; lia).
    destruct (diceDict_fuel split f2 (take _ l1) g1) as [[[dl|e] ?] g2]; [|done].
    by rewrite (IH f2 (drop _ l1)) by (simpl in *; lia).
Qed.

(** The recursion equation of [diceDict], as the source has it. *)
Lemma diceDict_split_unfold split diceList g :
  valid_split split →
  diceDict_split split diceList g =
  match diceList with
  | [] => (Ok ∅, diceList, g)
  | [die] => (single_die die, diceList, g)
  | _ =>
    let '(diceList, g) := shuffle diceList g in
    let L := split (length diceList) in
    let '(leftRes, _, g) := diceDict_split split (take L diceList) g in
    match leftRes with
    | Raise e => (Raise e, diceList, g)
    | Ok leftDict =>
      let '(rightRes, _, g) := diceDict_split split (drop L diceList) g in
      match rightRes with
      | Raise e => (Raise e, diceList, g)
      | Ok rightDict =>
        let final := _mergeDiceDicts leftDict rightDict in
        (Ok (dict_of_items (sorted_items final)), diceList, g)
      end
    end
  end.
Proof.
  intros Hs. unfold diceDict_split.
  destruct diceList as [|d1 [|d2 l]]; [done|done|].
  change (length (d1 :: d2 :: l)) with (S (S (length l))).
  remember (S (length l)) as f eqn:Hf. cbn [diceDict_fuel].
  pose proof (shuffle_length (d1 :: d2 :: l) g) as Hlen.
  destruct (shuffle (d1 :: d2 :: l) g) as [l1 g1]. cbn [fst] in Hlen.
  destruct (split_lengths split l1 Hs) as [Ht Hd]; [simpl in *; lia|].
  rewrite (diceDict_fuel_irrelevant split
             (length (take (split (length l1)) l1)) f)
    by (simpl in *; done || lia).
  destruct (diceDict_fuel split f (take _ l1) g1) as [[[dl|e] ?] g2]; [|done].
  by rewrite (diceDict_fuel_irrelevant split
                (length (drop (split (length l1)) l1)) f)
    by (simpl in *; done || lia).
Qed.

Lemma diceDict_list_unfold diceList g :
  diceDict_list diceList g =
  match diceList with
  | [] => (Ok ∅, diceList, g)
  | [die] => (single_die die, diceList, g)
  | _ =>
    let '(diceList, g) := shuffle diceList g in
    let L := half (length diceList) in
    let '(leftRes, _, g) := diceDict_list (take L diceList) g in
    match leftRes with
    | Raise e => (Raise e, diceList, g)
    | Ok leftDict =>
      let '(rightRes, _, g) := diceDict_list (drop L diceList) g in
      match rightRes with
      | Raise e => (Raise e, diceList, g)
      | Ok rightDict =>
        let final := _mergeDiceDicts leftDict rightDict in
        (Ok (dict_of_items (sorted_items final)), diceList, g)
      end
    end
  end.
Proof. apply diceDict_split_unfold, valid_split_half. Qed.

(** The caller's list is left as some permutation of what it was. *)
Lemma diceDict_fuel_after split fuel l g :
  after (diceDict_fuel split fuel l g) ≡ₚ l.
Proof.
  destruct l as [|d1 [|d2 l]]; [by destruct fuel..|].
  destruct fuel as [|fuel]; [done|]. cbn [diceDict_fuel].
  pose proof (shuffle_perm (d1 :: d2 :: l) g) as Hp.
  destruct (shuffle (d1 :: d2 :: l) g) as [l1 g1]. cbn [fst] in Hp.
  destruct (diceDict_fuel split fuel (take _ l1) g1) as [[[dl|e] ?] g2]; [|done].
  by destruct (diceDict_fuel split fuel (drop _ l1) g2) as [[[dr|e] ?] g3].
Qed.

Lemma single_die_sound die d :
  single_die die = Ok d → represents d (faces_of die) ∧ valid_die die.
Proof.
  destruct die as [n|faces|s]; simpl; [|intros [= <-]|done].
  - destruct (Z.ltb_spec 0 n); [|done]. intros [= <-].
    split; [apply represents_uniform|done].
  - split; [apply represents_explicit|done].
Qed.

Lemma single_die_valid die : valid_die die → ∃ d, single_die die = Ok d.
Proof.
  destruct die as [n|faces|s]; simpl; [|eauto|done].
  intros Hn. apply Z.ltb_lt in Hn. rewrite Hn. eauto.
Qed.

(** Whatever dictionary [diceDict] returns counts the face combinations
    of its dice, and then every die is a valid descriptor. *)
Lemma diceDict_fuel_sound split fuel l g d :
  res (diceDict_fuel split fuel l g) = Ok d →
  represents d (outcomes l) ∧ Forall valid_die l.
Proof.
  revert l g d. induction fuel as [|fuel IH]; intros l g d.
  - destruct l as [|d1 [|d2 l]]; unfold res; cbn [diceDict_fuel fst].
    + intros [= <-]. split; [apply represents_empty|done].
    + intros [Hr Hv]%single_die_sound. rewrite outcomes_singleton.
      split; [done|]. by apply Forall_singleton.
    + done.
  - destruct l as [|d1 [|d2 l]].
    + intros [= <-]. split; [apply represents_empty|done].
    + unfold res; cbn [diceDict_fuel fst]. intros [Hr Hv]%single_die_sound.
      rewrite outcomes_singleton. split; [done|]. by apply Forall_singleton.
    + cbn [diceDict_fuel].
      pose proof (shuffle_perm (d1 :: d2 :: l) g) as Hp.
      destruct (shuffle (d1 :: d2 :: l) g) as [l1 g1]. cbn [fst] in Hp.
      pose proof (IH (take (split (length l1)) l1) g1) as IHl.
      destruct (diceDict_fuel split fuel (take _ l1) g1) as [[[dl|e] ?] g2]; [|done].
      pose proof (IH (drop (split (length l1)) l1) g2) as IHr.
      destruct (diceDict_fuel split fuel (drop _ l1) g2) as [[[dr|e] ?] g3]; [|done].
      unfold res; cbn [fst]. intros [= <-].
      destruct (IHl dl eq_refl) as [Hl Hvl], (IHr dr eq_refl) as [Hr Hvr].
      rewrite dict_of_sorted_items. split.
      * eapply represents_same_counts; [by apply represents_merge|].
        rewrite <- outcomes_app, take_drop. by apply outcomes_perm.
      * rewrite <- Hp, <- (take_drop (split (length l1)) l1).
        by apply Forall_app.
Qed.

(** On valid dice, with a valid split and enough fuel, [diceDict] returns
    a dictionary. *)
Lemma diceDict_fuel_total split fuel l g :
  valid_split split → Forall valid_die l → (length l ≤ fuel)%nat →
  ∃ d, res (diceDict_fuel split fuel l g) = Ok d.
Proof.
  intros Hs. revert l g. induction fuel as [|fuel IH]; intros l g Hv Hlen.
  - destruct l as [|d1 [|d2 l]]; simpl in Hlen; try lia. by exists ∅.
  - destruct l as [|d1 [|d2 l]].
    + by exists ∅.
    + apply (proj1 (Forall_singleton _ _)), single_die_valid in Hv as [d Hd].
      exists d. unfold res. by simpl.
    + cbn [diceDict_fuel].
      pose proof (shuffle_perm (d1 :: d2 :: l) g) as Hp.
      pose proof (shuffle_length (d1 :: d2 :: l) g) as Hl1.
      destruct (shuffle (d1 :: d2 :: l) g) as [l1 g1]. cbn [fst] in Hp, Hl1.
      assert (Hv1 : Forall valid_die l1) by (by rewrite Hp).
      destruct (split_lengths split l1 Hs) as [Ht Hd]; [simpl in *; lia|].
      destruct (IH (take (split (length l1)) l1) g1) as [dl Hdl];
        [by apply Forall_take|simpl in *; lia|].
      destruct (diceDict_fuel split fuel (take _ l1) g1) as [[rl ?] g2].
      unfold res in Hdl; simpl in Hdl; subst rl.
      destruct (IH (drop (split (length l1)) l1) g2) as [dr Hdr];
        [by apply Forall_drop|simpl in *; lia|].
      destruct (diceDict_fuel split fuel (drop _ l1) g2) as [[rr ?] g3].
      unfold res in Hdr; simpl in Hdr; subst rr.
      eexists. by unfold res.
Qed.

(** The distribution of a valid die-list, whatever the split, the
    generator and the order of the dice. *)
Lemma diceDict_split_correct split l g :
  valid_split split → Forall valid_die l →
  ∃ d, res (diceDict_split split l g) = Ok d ∧ represents d (outcomes l).
Proof.
  intros Hs Hv. destruct (diceDict_fuel_total split (length l) l g) as [d Hd]; try done.
  exists d. split; [done|]. by apply (diceDict_fuel_sound split (length l) l g).
Qed.

(** * [diceDict] on a die-list *)

Lemma res_diceDict l g : res (diceDict (AList l) g) = res (diceDict_list l g).
Proof. unfold diceDict. by destruct (diceDict_list l g) as [[r l'] g']. Qed.

Lemma after_diceDict l g :
  after (diceDict (AList l) g) = AList (after (diceDict_list l g)).
Proof. unfold diceDict. by destruct (diceDict_list l g) as [[r l'] g']. Qed.

Lemma diceDict_sound l g d :
  res (diceDict (AList l) g) = Ok d →
  represents d (outcomes l) ∧ Forall valid_die l.
Proof. rewrite res_diceDict. apply diceDict_fuel_sound. Qed.

Lemma diceDict_correct l g :
  Forall valid_die l →
  ∃ d, res (diceDict (AList l) g) = Ok d ∧ represents d (outcomes l).
Proof.
  intros Hv. rewrite res_diceDict.
  by apply diceDict_split_correct; [apply valid_split_half|].
Qed.

Lemma length_faces_of die :
  valid_die die → Z.of_nat (length (faces_of die)) = face_count die.
Proof.
  destruct die as [n|faces|s]; simpl; [|done..].
  intros Hn. unfold range. rewrite length_seqZ. lia.
Qed.

Lemma length_outcomes l :
  Forall valid_die l → Forall has_faces l → l ≠ [] →
  Z.of_nat (length (outcomes l)) = face_product l ∧ outcomes l ≠ [].
Proof.
  induction l as [|die l IH]; intros Hv Hf Hne; [done|].
  apply Forall_cons in Hv as [Hv1 Hv], Hf as [Hf1 Hf].
  rewrite outcomes_cons. cbn [face_product foldr].
  rewrite <- (length_faces_of die Hv1).
  destruct l as [|die' l].
  - rewrite msum_nil_r. simpl. split; [lia|done].
  - destruct IH as [IH1 IH2]; [done..|].
    rewrite msum_nonempty by done. split; [|by apply sums_nonempty].
    rewrite length_sums. unfold face_product in IH1. lia.
Qed.

(** C2, as the code has it.  For a non-empty die-list that [diceDict]
    accepts and in which every die has at least one face, the counts of
    the returned mapping add up to the product of the face counts. *)
Theorem diceDict_total_is_face_product (l : list elem) (g : rng) (d : dict) :
  l ≠ [] → Forall has_faces l →
  res (diceDict (AList l) g) = Ok d →
  sum_values d = face_product l.
Proof.
  intros Hne Hf [Hr Hv]%diceDict_sound.
  rewrite (represents_sum_values _ _ Hr).
  by apply length_outcomes.
Qed.

Lemma diceDict_total_is_face_product_witness :
  ∃ d, res (diceDict (AList [EInt 6; EList [1; 1; 2]; EInt 4]) [5; 0; 3]%nat) = Ok d ∧
       sum_values d = 72.
Proof.
  eexists. split; [by vm_compute|].
  apply (diceDict_total_is_face_product
           [EInt 6; EList [1; 1; 2]; EInt 4] [5; 0; 3]%nat).
  - done.
  - repeat constructor; by vm_compute.
  - by vm_compute.
Defined.

(** C2 as stated fails: a die without faces is passed over by the merge,
    while it contributes the factor 0 to the product. *)
Lemma diceDict_total_not_face_product :
  ∃ d, res (diceDict (AList [EList []; EInt 6]) []) = Ok d ∧
       sum_values d = 6 ∧ face_product [EList []; EInt 6] = 0.
Proof. eexists. split; [by vm_compute|]. split; by vm_compute. Qed.

(** C3.  On a valid die-list the returned mapping is the same for every
    order of the dice, every valid split point (so for the floor and the
    ceiling of half the length) and every run of the shuffle. *)
Theorem diceDict_order_split_shuffle_invariant
    (split split' : nat → nat) (l l' : list elem) (g g' : rng) :
  valid_split split → valid_split split' →
  Forall valid_die l → l ≡ₚ l' →
  ∃ d, res (diceDict_split split l g) = Ok d ∧
       res (diceDict_split split' l' g') = Ok d.
Proof.
  intros Hs Hs' Hv Hp.
  destruct (diceDict_split_correct split l g Hs Hv) as (d & Hd & Hr).
  destruct (diceDict_split_correct split' l' g' Hs') as (d' & Hd' & Hr');
    [by rewrite <- Hp|].
  exists d. split; [done|]. rewrite Hd'. f_equal.
  apply (represents_unique _ _ (outcomes l)); [|done].
  eapply represents_same_counts; [done|]. by apply outcomes_perm.
Qed.

Lemma diceDict_order_split_shuffle_invariant_witness :
  ∃ d, res (diceDict_split half [EInt 6; EList [0; 2; 2]; EInt 4] [1; 0]%nat) = Ok d ∧
       res (diceDict_split half_up [EInt 4; EInt 6; EList [0; 2; 2]] [0; 7; 2]%nat) = Ok d.
Proof.
  apply diceDict_order_split_shuffle_invariant.
  - apply valid_split_half.
  - apply valid_split_half_up.
  - repeat constructor; by vm_compute.
  - symmetry. apply (Permutation_cons_append [EInt 6; EList [0; 2; 2]] (EInt 4)).
Defined.

(** C4, as the code has it.  The shuffle is in place: after the call the
    caller's list holds the same dice in some order, and a list of at
    most one die is left as it was. *)
Theorem diceDict_caller_list_permuted (l : list elem) (g : rng) :
  ∃ l', after (diceDict (AList l) g) = AList l' ∧ l' ≡ₚ l ∧
        ((length l ≤ 1)%nat → l' = l).
Proof.
  exists (after (diceDict_list l g)). split; [apply after_diceDict|].
  split; [apply diceDict_fuel_after|].
  intros Hlen. by destruct l as [|d1 [|d2 l]]; [..|simpl in Hlen; lia].
Qed.

Lemma diceDict_caller_list_permuted_witness :
  ∃ l', after (diceDict (AList [EInt 3]) [4]%nat) = AList l' ∧ l' = [EInt 3].
Proof.
  destruct (diceDict_caller_list_permuted [EInt 3] [4]%nat) as (l' & H1 & _ & H3).
  exists l'. split; [done|]. apply H3. simpl. lia.
Defined.

(** C4 as stated fails: the list [[1, 2]] is left as [[2, 1]]. *)
Lemma diceDict_mutates_caller_list :
  after (diceDict (AList [EInt 1; EInt 2]) [0]%nat) = AList [EInt 2; EInt 1] ∧
  AList [EInt 2; EInt 1] ≠ AList [EInt 1; EInt 2].
Proof. split; [by vm_compute|done]. Qed.

(** * [diceProb] and [roll] on their argument *)

Section floats.
Context (float : Type) (fdiv : Z → Z → float).

Lemma res_diceProb a l exact g :
  as_list a = Some l →
  res (diceProb float fdiv a exact g) =
  match res (diceDict_list l g) with
  | Ok d => probabilities float fdiv exact d
  | Raise e => Raise e
  end.
Proof.
  intros Ha. unfold diceProb. rewrite Ha.
  by destruct (diceDict_list l g) as [[[d|e] l'] g'].
Qed.

Lemma res_diceProb_old a l g :
  as_list a = Some l →
  res (Old.diceProb float fdiv a g) =
  match res (Old.diceDict_list l g) with
  | Ok d => Old.probabilities float fdiv d
  | Raise e => Raise e
  end.
Proof.
  intros Ha. unfold Old.diceProb. rewrite Ha.
  by destruct (Old.diceDict_list l g) as [[[d|e] l'] g'].
Qed.

Lemma probabilities_empty exact :
  probabilities float fdiv exact ∅ = Ok (no_probabilities exact).
Proof. by destruct exact. Qed.
End floats.

Lemma range_nonempty n : 0 < n → range 1 (n + 1) ≠ [].
Proof.
  intros Hn H. apply (f_equal length) in H. unfold range in H.
  rewrite length_seqZ in H. simpl in H. lia.
Qed.

Lemma elem_of_range a b x : x ∈ range a b ↔ a ≤ x < b.
Proof. unfold range. rewrite elem_of_seqZ. lia. Qed.

Lemma choice_range_small n g :
  0 < n → n ≤ maxsize → ∃ a, (choice_range n g).1 = Ok a ∧ 1 ≤ a ≤ n.
Proof.
  intros Hn Hmax. unfold choice_range. rewrite (proj2 (Z.ltb_ge maxsize n) Hmax).
  destruct (choice_Ok (range 1 (n + 1)) g (range_nonempty n Hn)) as (a & Ha & Hin).
  exists a. split; [done|]. apply elem_of_range in Hin. lia.
Qed.

Lemma choice_range_large n g :
  maxsize < n → choice_range n g = (Raise OverflowError, g).
Proof. intros Hn. unfold choice_range. by rewrite (proj2 (Z.ltb_lt maxsize n) Hn). Qed.

Lemma choice_range_Ok_inv n g a :
  0 < n → (choice_range n g).1 = Ok a → n ≤ maxsize ∧ 1 ≤ a ≤ n.
Proof.
  intros Hn Ha. destruct (decide (n ≤ maxsize)) as [Hmax|Hmax].
  - destruct (choice_range_small n g Hn Hmax) as (a' & Ha' & ?).
    rewrite Ha in Ha'. by injection Ha' as ->.
  - by rewrite choice_range_large in Ha by lia.
Qed.

Lemma choice_range_Raise_inv n g e :
  0 < n → (choice_range n g).1 = Raise e → e = OverflowError ∧ maxsize < n.
Proof.
  intros Hn He. destruct (decide (n ≤ maxsize)) as [Hmax|Hmax].
  - destruct (choice_range_small n g Hn Hmax) as (a' & Ha' & ?). congruence.
  - rewrite choice_range_large in He by lia. simpl in He. split; [congruence|lia].
Qed.



(** C5, as the code has it.  When the distribution of the die-list has
    no outcome at all, so for the empty die-list, [diceProb] raises
    nothing and returns the empty mapping, in either mode. *)
Theorem diceProb_no_outcomes (float : Type) (fdiv : Z → Z → float)
    (exact : bool) (l : list elem) (g : rng) (d : dict) :
  res (diceDict (AList l) g) = Ok d → sum_values d = 0 →
  res (diceProb float fdiv (AList l) exact g) = Ok (no_probabilities exact).
Proof.
  intros Hd Hs. destruct (diceDict_sound _ _ _ Hd) as [Hr _].
  rewrite (represents_sum_values _ _ Hr) in Hs.
  assert (d = ∅) as ->.
  { apply (represents_nil_iff _ _ Hr). destruct (outcomes l); [done|simpl in Hs; lia]. }
  rewrite res_diceDict in Hd.
  rewrite (res_diceProb _ _ _ l) by done. rewrite Hd. apply probabilities_empty.
Qed.

Lemma diceProb_no_outcomes_witness :
  res (diceProb Q exact_quotient (AList [EList []; EList []]) true [1]%nat)
  = Ok (Fractions ∅).
Proof.
  apply (diceProb_no_outcomes Q exact_quotient true [EList []; EList []] [1]%nat ∅);
    by vm_compute.
Defined.

(** C5 as stated fails: on the empty die-list [diceProb] returns the
    empty mapping. *)
Lemma diceProb_empty_list_returns :
  res (diceProb Q exact_quotient (AList []) true []) = Ok (Fractions ∅) ∧
  res (diceProb Q exact_quotient (AList []) false []) = Ok (Floats ∅).
Proof. split; by vm_compute. Qed.

(** C6, as the code has it.  [diceDict] rejects every argument that is
    not a list, a bare integer of any sign included, with the
    invalid-argument assertion.  It is [diceProb] and [roll] that recast
    a bare integer to a one-element list, and there an integer that is
    not positive fails with the assertion on the number of sides. *)
Theorem diceDict_rejects_bare_argument :
  (∀ n g, res (diceDict (AInt n) g) = Raise (invalid_argument "diceDict")) ∧
  (∀ s g, res (diceDict (AStr s) g) = Raise (invalid_argument "diceDict")) ∧
  (∀ float fdiv n exact g,
     res (diceProb float fdiv (AInt n) exact g) =
     res (diceProb float fdiv (AList [EInt n]) exact g)) ∧
  (∀ n g, roll (AInt n) g = roll (AList [EInt n]) g) ∧
  (∀ float fdiv n exact g, n ≤ 0 →
     res (diceProb float fdiv (AInt n) exact g) = Raise negative_sides) ∧
  (∀ n g, n ≤ 0 → (roll (AInt n) g).1 = Raise negative_sides).
Proof.
  repeat split; try done.
  - intros float fdiv n exact g. by rewrite !(res_diceProb _ _ _ [EInt n]).
  - intros float fdiv n exact g Hn. rewrite (res_diceProb _ _ _ [EInt n]) by done.
    unfold res. cbn. by rewrite (proj2 (Z.ltb_ge 0 n) Hn).
  - intros n g Hn. cbn. by rewrite (proj2 (Z.ltb_ge 0 n) Hn).
Qed.

Lemma diceDict_rejects_bare_argument_witness :
  res (diceProb Q exact_quotient (AInt (-3)) false [2]%nat) = Raise negative_sides ∧
  (roll (AInt 0) [2]%nat).1 = Raise negative_sides.
Proof.
  destruct diceDict_rejects_bare_argument as (_ & _ & _ & _ & H1 & H2).
  split; [apply H1|apply H2]; lia.
Defined.

(** C6 as stated fails: [diceDict(0)] and [diceDict(-3)] fail with the
    invalid-argument assertion, and [diceDict(6)] fails as well. *)
Lemma diceDict_bare_integer_invalid_argument :
  res (diceDict (AInt 0) []) = Raise (invalid_argument "diceDict") ∧
  res (diceDict (AInt (-3)) []) = Raise (invalid_argument "diceDict") ∧
  res (diceDict (AInt 6) []) = Raise (invalid_argument "diceDict") ∧
  invalid_argument "diceDict" ≠ negative_sides.
Proof. repeat split; done. Qed.

Lemma shuffle_two {A} (a b : A) g :
  (shuffle [a; b] g).1 = [a; b] ∨ (shuffle [a; b] g).1 = [b; a].
Proof.
  unfold shuffle. cbn [length Nat.sub shuffle_loop].
  pose proof (randbelow_lt 2 g ltac:(lia)) as Hlt.
  destruct (randbelow 2 g) as [j g']. cbn [fst] in Hlt.
  destruct j as [|[|j]]; [by right|by left|lia].
Qed.

(** C7 at the die-list [[6, "abc"]].  [roll] passes the string over and
    returns the draw of the six-sided die, a number from 1 to 6, where
    [diceDict] raises on the same list. *)
Theorem roll_passes_over_string (g : rng) :
  (∃ v, (roll (AList [EInt 6; EStr "abc"]) g).1 = Ok v ∧ 1 ≤ v ≤ 6) ∧
  res (diceDict (AList [EInt 6; EStr "abc"]) g) = Raise TypeError.
Proof.
  split.
  - unfold roll. cbn [as_list roll_loop Z.ltb Z.compare].
    destruct (choice_range_small 6 g) as (v & Hc & Hv); [done..|].
    destruct (choice_range 6 g) as [[v'|e] g']; [|done].
    simpl in Hc. injection Hc as ->. exists (0 + v). split; [done|lia].
  - rewrite res_diceDict, diceDict_list_unfold.
    destruct (shuffle_two (EInt 6) (EStr "abc") g) as [H|H];
      destruct (shuffle [EInt 6; EStr "abc"] g) as [l1 g1];
      cbn [fst] in H; subst l1; by vm_compute.
Qed.



(** * The probabilities *)

Lemma dict_comp_raise_ext {V} (f f' : Z → result V) ks acc :
  (∀ x, x ∈ ks → f x = f' x) → dict_comp_raise f ks acc = dict_comp_raise f' ks acc.
Proof.
  revert acc. induction ks as [|k ks IH]; intros acc H; [done|].
  simpl. rewrite <- (H k) by left. destruct (f k); [|done].
  apply IH. intros x Hx. apply H. by right.
Qed.

Lemma dict_comp_keys {V} (h : Z → V) (d : dict) (ks : list Z) :
  ks ≡ₚ keys d → dict_comp (λ x, h (d !!! x)) ks = h <$> d.
Proof.
  intros Hp. apply map_eq. intros k. rewrite dict_comp_lookup, lookup_fmap.
  destruct (decide (k ∈ ks)) as [Hin|Hnin].
  - rewrite Hp in Hin. apply elem_of_keys in Hin as [v Hv].
    by rewrite Hv, (lookup_total_correct _ _ _ Hv).
  - rewrite Hp, elem_of_keys in Hnin. apply eq_None_not_Some in Hnin.
    by rewrite Hnin.
Qed.

Lemma keys_nil_iff {V} (d : gmap Z V) : keys d = [] ↔ d = ∅.
Proof.
  unfold keys. rewrite <- map_to_list_empty_iff.
  split; [apply fmap_nil_inv|by intros ->].
Qed.

Section floats.
Context (float : Type) (fdiv : Z → Z → float).

(** The floats of [diceProb] do not depend on the order of the keys. *)
Lemma truediv_comp (d : dict) (s : Z) (ks : list Z) :
  ks ≡ₚ keys d →
  dict_comp_raise (λ x, truediv float fdiv (d !!! x) s) ks ∅ =
  if decide (s = 0 ∧ d ≠ ∅) then Raise ZeroDivisionError
  else Ok ((λ c, fdiv c s) <$> d).
Proof.
  intros Hp. destruct (decide (s = 0)) as [->|Hs].
  - destruct (decide (d = ∅)) as [->|Hd].
    + rewrite decide_False by (by intros [_ ?]).
      assert (ks = []) as ->.
      { apply Permutation_nil. by rewrite Hp, (proj2 (keys_nil_iff _)). }
      by rewrite fmap_empty.
    + rewrite decide_True by done. apply dict_comp_raise_Raise; [done|].
      intros ->. apply Hd, keys_nil_iff. symmetry in Hp.
      by apply Permutation_nil.
  - rewrite decide_False by (by intros [? _]).
    rewrite (dict_comp_raise_ext _ (λ x, Ok (fdiv (d !!! x) s))).
    + rewrite dict_comp_raise_Ok. f_equal.
      by apply (dict_comp_keys (λ c, fdiv c s)).
    + intros x _. unfold truediv. by rewrite (proj2 (Z.eqb_neq s 0) Hs).
Qed.

Lemma probabilities_old_new (d : dict) :
  Old.probabilities float fdiv d = probabilities float fdiv false d.
Proof.
  unfold Old.probabilities, probabilities. cbv zeta.
  by rewrite !truediv_comp by (done || apply sorted_keys_perm).
Qed.
End floats.

(** The older [diceDict] differs by the final sort only, which rebuilds
    the same mapping. *)
Lemma diceDict_fuel_old fuel l g :
  Old.diceDict_fuel fuel l g = diceDict_fuel half fuel l g.
Proof.
  revert l g. induction fuel as [|fuel IH]; intros l g.
  - by destruct l as [|d1 [|d2 l]].
  - destruct l as [|d1 [|d2 l]]; [done..|].
    cbn [Old.diceDict_fuel diceDict_fuel].
    destruct (shuffle (d1 :: d2 :: l) g) as [l1 g1]. rewrite IH.
    destruct (diceDict_fuel half fuel (take _ l1) g1) as [[[dl|e] ?] g2]; [|done].
    rewrite IH.
    destruct (diceDict_fuel half fuel (drop _ l1) g2) as [[[dr|e] ?] g3]; [|done].
    by rewrite dict_of_sorted_items.
Qed.

Lemma diceDict_list_old l g : Old.diceDict_list l g = diceDict_list l g.
Proof. apply diceDict_fuel_old. Qed.

(** C9.  On a valid die-list the older [diceProb] and the newer one with
    [exact=False] return the same mapping, whatever the two runs of the
    shuffle: the keys of the distribution [d], each with the float of its
    count divided by the total. *)
Theorem diceProb_old_new_agree (float : Type) (fdiv : Z → Z → float)
    (l : list elem) (g g' : rng) :
  Forall valid_die l →
  ∃ d, represents d (outcomes l) ∧
       res (Old.diceProb float fdiv (AList l) g) =
         Ok (Floats ((λ c, fdiv c (sum_values d)) <$> d)) ∧
       res (diceProb float fdiv (AList l) false g') =
         Ok (Floats ((λ c, fdiv c (sum_values d)) <$> d)).
Proof.
  intros Hv.
  destruct (diceDict_split_correct half l g valid_split_half Hv) as (d & Hd & Hr).
  destruct (diceDict_split_correct half l g' valid_split_half Hv) as (d' & Hd' & Hr').
  assert (d' = d) as -> by (by apply (represents_unique _ _ (outcomes l))).
  exists d. split; [done|].
  assert (Hp : probabilities float fdiv false d =
               Ok (Floats ((λ c, fdiv c (sum_values d)) <$> d))).
  { unfold probabilities. cbv zeta.
    rewrite truediv_comp by apply sorted_keys_perm.
    rewrite decide_False; [done|]. intros [Hs Hne]. apply Hne.
    rewrite (represents_sum_values _ _ Hr) in Hs.
    apply (represents_nil_iff _ _ Hr). destruct (outcomes l); [done|simpl in Hs; lia]. }
  split.
  - rewrite (res_diceProb_old _ _ _ l) by done.
    rewrite diceDict_list_old. unfold diceDict_list. rewrite Hd.
    by rewrite probabilities_old_new.
  - rewrite (res_diceProb _ _ _ l) by done.
    unfold diceDict_list. by rewrite Hd'.
Qed.

Lemma diceProb_old_new_agree_witness :
  ∃ d, represents d (outcomes [EInt 2; EList [0; 0; 5]]) ∧
       res (Old.diceProb Q exact_quotient (AList [EInt 2; EList [0; 0; 5]]) [3]%nat) =
         Ok (Floats ((λ c, exact_quotient c (sum_values d)) <$> d)) ∧
       res (diceProb Q exact_quotient (AList [EInt 2; EList [0; 0; 5]]) false [0; 1]%nat) =
         Ok (Floats ((λ c, exact_quotient c (sum_values d)) <$> d)).
Proof.
  apply diceProb_old_new_agree. repeat constructor; by vm_compute.
Defined.

(** ** Exact mode *)

Lemma foldl_Qred (a : Q) (l : list Q) :
  (foldl (λ acc q, Qred (acc + q)) a l == a + Qsum l)%Q.
Proof.
  revert a. induction l as [|q l IH]; intros a; simpl.
  - by rewrite Qplus_0_r.
  - rewrite IH, Qred_correct. by rewrite Qplus_assoc.
Qed.

Lemma Qsum_fractions (p : positive) (cs : list Z) :
  (Qsum ((λ c, Qred (c # p)) <$> cs) == sum_list cs # p)%Q.
Proof.
  induction cs as [|c cs IH]; [done|].
  rewrite sum_list_cons. simpl. rewrite IH, Qred_correct.
  apply Qinv_plus_distr.
Qed.

Lemma values_fmap {V W} (h : V → W) (d : gmap Z V) : values (h <$> d) = h <$> values d.
Proof.
  unfold values. rewrite map_to_list_fmap, <- !list_fmap_compose.
  by apply list_fmap_ext; intros i [k v] _.
Qed.

Lemma Fraction_pos (c s : Z) : 0 < s → Fraction c s = Ok (Qred (c # Z.to_pos s)).
Proof.
  intros Hs. unfold Fraction. rewrite (proj2 (Z.eqb_neq s 0)) by lia.
  rewrite Z.sgn_pos, Z.abs_eq by lia. by rewrite Z.mul_1_l.
Qed.

Lemma fraction_comp (d : dict) (s : Z) (ks : list Z) :
  0 < s → ks ≡ₚ keys d →
  dict_comp_raise (λ x, Fraction (d !!! x) s) ks ∅ =
  Ok ((λ c, Qred (c # Z.to_pos s)) <$> d).
Proof.
  intros Hs Hp.
  rewrite (dict_comp_raise_ext _ (λ x, Ok (Qred ((d !!! x) # Z.to_pos s))))
    by (intros; by apply Fraction_pos).
  rewrite dict_comp_raise_Ok. f_equal.
  by apply (dict_comp_keys (λ c, Qred (c # Z.to_pos s))).
Qed.

Lemma represents_total_pos d O : represents d O → d ≠ ∅ → 0 < sum_values d.
Proof.
  intros Hr Hne. rewrite (represents_sum_values _ _ Hr).
  destruct O as [|x O]; [|simpl; lia]. destruct Hne. by apply represents_nil.
Qed.

(** C8.  In exact mode, on a die-list that [diceDict] accepts (a valid
    one, see [diceDict_sound]) and whose distribution [d] is not empty,
    [diceProb] maps every outcome to its count divided by the total [S]
    of the counts, as the fraction in lowest terms, and the fractions add
    up to 1. *)
Theorem diceProb_exact (float : Type) (fdiv : Z → Z → float)
    (l : list elem) (g : rng) (d : dict) :
  res (diceDict (AList l) g) = Ok d → d ≠ ∅ →
  ∃ P, res (diceProb float fdiv (AList l) true g) = Ok (Fractions P) ∧
       dom P = dom d ∧
       (∀ x c, d !! x = Some c →
          ∃ q, P !! x = Some q ∧
               (q == inject_Z c / inject_Z (sum_values d))%Q ∧
               q = Qred (c # Z.to_pos (sum_values d))) ∧
       (sum_fractions P == 1)%Q.
Proof.
  intros Hd Hne. destruct (diceDict_sound _ _ _ Hd) as [Hr _].
  pose proof (represents_total_pos _ _ Hr Hne) as Hs.
  set (S := sum_values d) in *.
  exists ((λ c, Qred (c # Z.to_pos S)) <$> d). repeat split.
  - rewrite res_diceDict in Hd. rewrite (res_diceProb _ _ _ l) by done.
    rewrite Hd. unfold probabilities. cbv zeta. fold S.
    by rewrite fraction_comp by (done || apply sorted_keys_perm).
  - apply dom_fmap_L.
  - intros x c Hx. eexists. rewrite lookup_fmap, Hx. split; [done|].
    split; [|done]. rewrite Qred_correct, Qmake_Qdiv.
    by rewrite Z2Pos.id by done.
  - unfold sum_fractions. rewrite foldl_Qred, values_fmap, Qsum_fractions.
    fold (sum_values d). fold S. rewrite Qplus_0_l.
    unfold Qeq. simpl. rewrite Z2Pos.id by done. lia.
Qed.

Lemma diceProb_exact_witness :
  ∃ P, res (diceProb Q exact_quotient (AList [EInt 2; EInt 2]) true [1]%nat)
         = Ok (Fractions P) ∧
       (sum_fractions P == 1)%Q.
Proof.
  destruct (diceProb_exact Q exact_quotient [EInt 2; EInt 2] [1]%nat
              (dict_comp (λ x, if decide (x = 3) then 2 else 1) [2; 3; 4]))
    as (P & HP & _ & _ & Hsum).
  - by vm_compute.
  - by apply (dict_nonempty_lookup _ 2 1).
  - by exists P.
Defined.


(** * Further properties of the merge *)

Lemma merge_lookup_nonempty d1 d2 s :
  d1 ≠ ∅ → d2 ≠ ∅ →
  (is_Some (_mergeDiceDicts d1 d2 !! s) ↔
     ∃ k1 k2, k1 ∈ keys d1 ∧ k2 ∈ keys d2 ∧ k1 + k2 = s) ∧
  get (_mergeDiceDicts d1 d2) s =
    wsum (λ k1, wsum (term d1 d2 s k1) (keys d2)) (keys d1).
Proof.
  intros H1 H2. rewrite merge_nonempty by done. split.
  - rewrite merge_loop_is_Some, lookup_empty. split; [|eauto].
    by intros [[? [=]]|?].
  - rewrite merge_loop_get. unfold get at 1. by rewrite lookup_empty.
Qed.

(** X1.  The merge is commutative, on all dictionaries. *)
Theorem mergeDiceDicts_comm (d1 d2 : dict) :
  _mergeDiceDicts d1 d2 = _mergeDiceDicts d2 d1.
Proof.
  destruct (decide (d1 = ∅)) as [->|H1]; [by rewrite merge_empty_l, merge_empty_r|].
  destruct (decide (d2 = ∅)) as [->|H2]; [by rewrite merge_empty_l, merge_empty_r|].
  apply dict_eq_get; intros s.
  - rewrite (proj1 (merge_lookup_nonempty d1 d2 s H1 H2)).
    rewrite (proj1 (merge_lookup_nonempty d2 d1 s H2 H1)).
    split; intros (a & b & ? & ? & ?); exists b, a; repeat split; try done; lia.
  - rewrite (proj2 (merge_lookup_nonempty d1 d2 s H1 H2)).
    rewrite (proj2 (merge_lookup_nonempty d2 d1 s H2 H1)).
    rewrite wsum_swap. apply wsum_ext. intros k2 _. apply wsum_ext. intros k1 _.
    unfold term. rewrite (Z.add_comm k1 k2). lia.
Qed.

(** X2.  The total of the counts of a merge of two non-empty
    dictionaries is the product of the two totals. *)
Theorem mergeDiceDicts_total (d1 d2 : dict) :
  d1 ≠ ∅ → d2 ≠ ∅ →
  sum_values (_mergeDiceDicts d1 d2) = sum_values d1 * sum_values d2.
Proof.
  intros H1 H2. rewrite !sum_values_wsum.
  rewrite (wsum_ext _ (λ s, wsum (λ k1, wsum (term d1 d2 s k1) (keys d2)) (keys d1))).
  2:{ intros s Hs. rewrite lookup_total_get by done.
      apply (merge_lookup_nonempty d1 d2 s H1 H2). }
  rewrite wsum_swap.
  rewrite <- wsum_scale_r. apply wsum_ext. intros k1 Hk1.
  rewrite wsum_swap. rewrite <- wsum_scale. apply wsum_ext. intros k2 Hk2.
  unfold term.
  rewrite (wsum_ext _ (λ s, ind s (k1 + k2) * ((d1 !!! k1) * (d2 !!! k2))))
    by (intros; by rewrite ind_sym).
  rewrite wsum_ind_NoDup by apply NoDup_keys.
  rewrite decide_True; [done|].
  apply elem_of_keys, (merge_lookup_nonempty d1 d2 _ H1 H2). eauto.
Qed.

Lemma mergeDiceDicts_total_witness :
  sum_values (_mergeDiceDicts (uniform_dict 6) (explicit_dict [0; 0; 5])) =
  sum_values (uniform_dict 6) * sum_values (explicit_dict [0; 0; 5]).
Proof.
  apply mergeDiceDicts_total.
  - by apply (dict_nonempty_lookup _ 1 1).
  - by apply (dict_nonempty_lookup _ 0 2).
Defined.

Lemma count_replicate s n k : count s (replicate n k) = ind k s * Z.of_nat n.
Proof.
  induction n as [|n IH]; [rewrite count_nil; lia|].
  cbn [replicate]. rewrite count_cons, IH. lia.
Qed.

Lemma represents_expand d : positive_counts d → represents d (expand d).
Proof.
  intros Hpos s.
  assert (Hc : count s (expand d) = get d s).
  { unfold expand. rewrite count_bind.
    rewrite (wsum_ext _ (λ k, ind k s * (d !!! k))).
    - rewrite wsum_ind_NoDup by apply NoDup_keys.
      destruct (decide (s ∈ keys d)) as [Hin|Hnin]; [by apply lookup_total_get|].
      rewrite elem_of_keys in Hnin. apply eq_None_not_Some in Hnin.
      unfold get. by rewrite Hnin.
    - intros k Hk. rewrite count_replicate.
      apply elem_of_keys in Hk as [v Hv].
      rewrite (lookup_total_correct _ _ _ Hv). specialize (Hpos _ _ Hv). lia. }
  split; [|done]. rewrite <- count_pos_iff, Hc. unfold get. split.
  - intros [v Hv]. rewrite Hv. simpl. by apply (Hpos s).
  - destruct (d !! s); [eauto|simpl; lia].
Qed.

Lemma represents_positive_counts d O : represents d O → positive_counts d.
Proof. intros H k v. by apply (represents_positive d O). Qed.

(** X3.  The merge of two dictionaries with positive counts has
    positive counts. *)
Theorem mergeDiceDicts_positive (d1 d2 : dict) :
  positive_counts d1 → positive_counts d2 →
  positive_counts (_mergeDiceDicts d1 d2).
Proof.
  intros H1%represents_expand H2%represents_expand.
  eapply represents_positive_counts. by apply represents_merge.
Qed.

Lemma mergeDiceDicts_positive_witness :
  positive_counts (_mergeDiceDicts (uniform_dict 6) (explicit_dict [0; 0; 5])).
Proof.
  apply mergeDiceDicts_positive.
  - apply (represents_positive_counts _ _ (represents_uniform 6)).
  - apply (represents_positive_counts _ _ (represents_explicit [0; 0; 5])).
Defined.

(** X4.  On dictionaries with positive counts the merge is
    associative. *)
Theorem mergeDiceDicts_assoc (d1 d2 d3 : dict) :
  positive_counts d1 → positive_counts d2 → positive_counts d3 →
  _mergeDiceDicts (_mergeDiceDicts d1 d2) d3 =
  _mergeDiceDicts d1 (_mergeDiceDicts d2 d3).
Proof.
  intros H1%represents_expand H2%represents_expand H3%represents_expand.
  apply (represents_unique _ _ (msum (msum (expand d1) (expand d2)) (expand d3))).
  - by repeat apply represents_merge.
  - eapply represents_same_counts; [by repeat apply represents_merge|].
    symmetry. apply msum_assoc.
Qed.

Lemma mergeDiceDicts_assoc_witness :
  _mergeDiceDicts (_mergeDiceDicts (uniform_dict 6) (explicit_dict [0; 0; 5]))
                  (uniform_dict 4) =
  _mergeDiceDicts (uniform_dict 6)
                  (_mergeDiceDicts (explicit_dict [0; 0; 5]) (uniform_dict 4)).
Proof.
  apply mergeDiceDicts_assoc.
  - apply (represents_positive_counts _ _ (represents_uniform 6)).
  - apply (represents_positive_counts _ _ (represents_explicit [0; 0; 5])).
  - apply (represents_positive_counts _ _ (represents_uniform 4)).
Defined.

Lemma size_keys {V} (d : gmap Z V) : size d = length (keys d).
Proof. unfold keys. by rewrite length_fmap, length_map_to_list. Qed.

(** X5.  A merge of two non-empty dictionaries has at most as many keys
    as there are pairs of a key of the one and a key of the other. *)
Theorem mergeDiceDicts_size (d1 d2 : dict) :
  d1 ≠ ∅ → d2 ≠ ∅ →
  (size (_mergeDiceDicts d1 d2) ≤ size d1 * size d2)%nat.
Proof.
  intros H1 H2. rewrite !size_keys, <- length_sums.
  apply submseteq_length, NoDup_submseteq; [apply NoDup_keys|].
  intros s Hs. apply elem_of_sums.
  by apply elem_of_keys, (merge_lookup_nonempty d1 d2 s H1 H2) in Hs.
Qed.

Lemma mergeDiceDicts_size_witness :
  (size (_mergeDiceDicts (uniform_dict 6) (uniform_dict 6)) ≤
   size (uniform_dict 6) * size (uniform_dict 6))%nat.
Proof.
  apply mergeDiceDicts_size; by apply (dict_nonempty_lookup _ 1 1).
Defined.

(** * Further properties of [diceDict] *)

(** Where an exception of [diceDict] comes from. *)
Lemma diceDict_fuel_raise split fuel l g e :
  valid_split split → (length l ≤ fuel)%nat →
  res (diceDict_fuel split fuel l g) = Raise e →
  (e = negative_sides ∧ ∃ n, EInt n ∈ l ∧ n ≤ 0) ∨
  (e = TypeError ∧ ∃ s, EStr s ∈ l).
Proof.
  intros Hs. revert l g.
  assert (Hsingle : ∀ die, single_die die = Raise e →
    (e = negative_sides ∧ ∃ n, EInt n ∈ [die] ∧ n ≤ 0) ∨
    (e = TypeError ∧ ∃ s, EStr s ∈ [die])).
  { intros [n|faces|s]; simpl; [|done|].
    - destruct (Z.ltb_spec 0 n); [done|]. intros [= <-]. left. split; [done|].
      exists n. split; [left|lia].
    - intros [= <-]. right. split; [done|]. exists s. left. }
  induction fuel as [|fuel IH]; intros l g Hlen.
  - destruct l as [|d1 [|d2 l]]; [done| |simpl in Hlen; lia].
    unfold res; cbn [diceDict_fuel fst]. apply Hsingle.
  - destruct l as [|d1 [|d2 l]]; [done|unfold res; cbn [diceDict_fuel fst]; apply Hsingle|].
    cbn [diceDict_fuel].
    pose proof (shuffle_perm (d1 :: d2 :: l) g) as Hp.
    pose proof (shuffle_length (d1 :: d2 :: l) g) as Hl1.
    destruct (shuffle (d1 :: d2 :: l) g) as [l1 g1]. cbn [fst] in Hp, Hl1.
    destruct (split_lengths split l1 Hs) as [Ht Hd]; [simpl in *; lia|].
    assert (Hsub : ∀ P : elem → Prop,
      (∃ x, (x ∈ take (split (length l1)) l1 ∨ x ∈ drop (split (length l1)) l1) ∧ P x) →
      ∃ x, x ∈ d1 :: d2 :: l ∧ P x).
    { intros P (x & Hx & HP). exists x. split; [|done]. rewrite <- Hp.
      rewrite <- (take_drop (split (length l1)) l1). by apply elem_of_app. }
    pose proof (IH (take (split (length l1)) l1) g1 ltac:(simpl in *; lia)) as IHl.
    destruct (diceDict_fuel split fuel (take _ l1) g1) as [[[dl|el] ?] g2].
    + pose proof (IH (drop (split (length l1)) l1) g2 ltac:(simpl in *; lia)) as IHr.
      destruct (diceDict_fuel split fuel (drop _ l1) g2) as [[[dr|er] ?] g3]; [done|].
      unfold res; cbn [fst]. intros [= ->].
      destruct (IHr eq_refl) as [[-> (n & Hn & ?)]|[-> (s & Hn)]]; [left|right];
        (split; [done|]).
      * destruct (Hsub (λ x, x = EInt n)) as (? & ? & ->); eauto.
      * destruct (Hsub (λ x, x = EStr s)) as (? & ? & ->); eauto.
    + unfold res; cbn [fst]. intros [= ->].
      destruct (IHl eq_refl) as [[-> (n & Hn & ?)]|[-> (s & Hn)]]; [left|right];
        (split; [done|]).
      * destruct (Hsub (λ x, x = EInt n)) as (? & ? & ->); eauto.
      * destruct (Hsub (λ x, x = EStr s)) as (? & ? & ->); eauto.
Qed.

(** X6.  On a list of integers, lists of integer faces and strings,
    [diceDict] returns a dictionary exactly when every element is a
    valid die: a positive integer or a list of faces.  Otherwise it
    raises the assertion on the number of sides, and then some integer
    of the list is not positive, or [TypeError], and then the list holds
    a string. *)
Theorem diceDict_accepts_valid_lists (l : list elem) (g : rng) :
  ((∃ d, res (diceDict (AList l) g) = Ok d) ↔ Forall valid_die l) ∧
  (∀ e, res (diceDict (AList l) g) = Raise e →
     (e = negative_sides ∧ ∃ n, EInt n ∈ l ∧ n ≤ 0) ∨
     (e = TypeError ∧ ∃ s, EStr s ∈ l)).
Proof.
  split.
  - split.
    + intros [d Hd]. by apply diceDict_sound in Hd as [_ ?].
    + intros Hv. destruct (diceDict_correct l g Hv) as (d & Hd & _). eauto.
  - intros e. rewrite res_diceDict.
    by apply diceDict_fuel_raise; [apply valid_split_half|].
Qed.

Lemma diceDict_accepts_valid_lists_witness :
  (∃ d, res (diceDict (AList [EInt 2; EList []; EInt 3]) [1]%nat) = Ok d) ∧
  ((Raise TypeError : result dict) = Raise negative_sides ∧ (∃ n, EInt n ∈ [EStr "x"] ∧ n ≤ 0) ∨
   (Raise TypeError : result dict) = Raise TypeError ∧ ∃ s, EStr s ∈ [EStr "x"]).
Proof.
  split.
  - apply (diceDict_accepts_valid_lists [EInt 2; EList []; EInt 3] [1]%nat).
    repeat constructor; by vm_compute.
  - destruct (proj2 (diceDict_accepts_valid_lists [EStr "x"] []) TypeError eq_refl)
      as [[? H]|[? H]]; [left|right]; by split.
Defined.

(** X7.  Every count of a dictionary that [diceDict] returns is
    positive. *)
Theorem diceDict_counts_positive (l : list elem) (g : rng) (d : dict) :
  res (diceDict (AList l) g) = Ok d → positive_counts d.
Proof.
  intros [Hr _]%diceDict_sound. by apply (represents_positive_counts d (outcomes l)).
Qed.

Lemma diceDict_counts_positive_witness :
  positive_counts (uniform_dict 3).
Proof.
  apply (diceDict_counts_positive [EInt 3] []). by vm_compute.
Defined.

(** X8.  The distribution of two die-lists put together is the merge of
    their distributions, whatever the three runs of the shuffle. *)
Theorem diceDict_app (l1 l2 : list elem) (g g1 g2 : rng) :
  Forall valid_die l1 → Forall valid_die l2 →
  ∃ d1 d2, res (diceDict (AList l1) g1) = Ok d1 ∧
           res (diceDict (AList l2) g2) = Ok d2 ∧
           res (diceDict (AList (l1 ++ l2)) g) = Ok (_mergeDiceDicts d1 d2).
Proof.
  intros Hv1 Hv2.
  destruct (diceDict_correct l1 g1 Hv1) as (d1 & Hd1 & Hr1).
  destruct (diceDict_correct l2 g2 Hv2) as (d2 & Hd2 & Hr2).
  destruct (diceDict_correct (l1 ++ l2) g) as (d & Hd & Hr); [by apply Forall_app|].
  exists d1, d2. repeat split; try done. rewrite Hd. f_equal.
  apply (represents_unique _ _ (outcomes (l1 ++ l2))); [done|].
  eapply represents_same_counts; [by apply represents_merge|].
  symmetry. apply outcomes_app.
Qed.

Lemma diceDict_app_witness :
  ∃ d1 d2, res (diceDict (AList [EInt 6; EInt 4]) [1]%nat) = Ok d1 ∧
           res (diceDict (AList [EList [0; 0; 5]]) []) = Ok d2 ∧
           res (diceDict (AList ([EInt 6; EInt 4] ++ [EList [0; 0; 5]])) [2; 0]%nat)
             = Ok (_mergeDiceDicts d1 d2).
Proof.
  apply diceDict_app; repeat constructor; by vm_compute.
Defined.

Lemma res_diceDict_single die g : res (diceDict (AList [die]) g) = single_die die.
Proof. done. Qed.

(** X9.  [diceDict] on a single die.  A list of faces gives every face
    its number of occurrences in the list and has no other key; a
    positive integer [n] gives count 1 to each of 1, ..., [n] and has no
    other key. *)
Theorem diceDict_single_die (g : rng) (k : Z) :
  (∀ faces, ∃ d, res (diceDict (AList [EList faces]) g) = Ok d ∧
     d !! k = if decide (k ∈ faces) then Some (count k faces) else None) ∧
  (∀ n, 0 < n → ∃ d, res (diceDict (AList [EInt n]) g) = Ok d ∧
     d !! k = if decide (1 ≤ k ≤ n) then Some 1 else None).
Proof.
  split.
  - intros faces. exists (explicit_dict faces). split; [done|].
    unfold explicit_dict. rewrite dict_comp_lookup.
    destruct (decide (k ∈ faces)) as [Hin|Hnin].
    + rewrite decide_True; [done|]. by rewrite elem_of_elements, elem_of_list_to_set.
    + rewrite decide_False; [done|]. by rewrite elem_of_elements, elem_of_list_to_set.
  - intros n Hn. exists (uniform_dict n). split.
    + rewrite res_diceDict_single. simpl. by rewrite (proj2 (Z.ltb_lt 0 n) Hn).
    + unfold uniform_dict. rewrite dict_comp_lookup.
      destruct (decide (1 ≤ k ≤ n)) as [Hin|Hnin].
      * rewrite decide_True; [done|]. apply elem_of_range. lia.
      * rewrite decide_False; [done|]. rewrite elem_of_range. lia.
Qed.

Lemma diceDict_single_die_witness :
  ∃ d, res (diceDict (AList [EInt 6]) [3]%nat) = Ok d ∧ d !! 4 = Some 1.
Proof.
  destruct (proj2 (diceDict_single_die [3]%nat 4) 6 ltac:(lia)) as (d & Hd & Hk).
  exists d. split; [done|]. rewrite Hk. by apply decide_True.
Defined.

(** X10.  A die with the single face [c] shifts the distribution: with
    that die put in front of a die-list whose distribution [d] is not
    empty, the count of [c + k] is the count of [k] in [d], for every
    [k]. *)
Theorem diceDict_constant_die (c : Z) (l : list elem) (g g' : rng) (d : dict) :
  res (diceDict (AList l) g) = Ok d → d ≠ ∅ →
  ∃ d', res (diceDict (AList (EList [c] :: l)) g') = Ok d' ∧
        ∀ k, d' !! (c + k) = d !! k.
Proof.
  intros [Hr Hv]%diceDict_sound Hne.
  destruct (diceDict_correct (EList [c] :: l) g') as (d' & Hd' & Hr').
  { by apply Forall_cons. }
  exists d'. split; [done|]. intros k.
  assert (HO : outcomes l ≠ []) by (by rewrite <- (represents_nil_iff _ _ Hr)).
  rewrite outcomes_cons in Hr'. cbn [faces_of] in Hr'.
  rewrite msum_nonempty in Hr' by done.
  destruct (Hr' (c + k)) as [Hs' Hg'], (Hr k) as [Hs Hg].
  rewrite (lookup_get d'), (lookup_get d), Hg', Hg.
  assert (Hc : count (c + k) (sums [c] (outcomes l)) = count k (outcomes l)).
  { rewrite count_sums_shift, wsum_cons, wsum_nil, Z.add_0_r. f_equal. lia. }
  rewrite Hc.
  assert (Hiff : is_Some (d' !! (c + k)) ↔ is_Some (d !! k)).
  { by rewrite Hs', Hs, <- !count_pos_iff, Hc. }
  destruct (decide (is_Some (d' !! (c + k)))) as [H|H].
  - rewrite decide_True; [done|]. by apply Hiff.
  - rewrite decide_False; [done|]. by rewrite <- Hiff.
Qed.

Lemma diceDict_constant_die_witness :
  ∃ d', res (diceDict (AList [EList [10]; EInt 6]) [1]%nat) = Ok d' ∧
        d' !! (10 + 3) = uniform_dict 6 !! 3.
Proof.
  destruct (diceDict_constant_die 10 [EInt 6] [] [1]%nat (uniform_dict 6))
    as (d' & Hd' & Hk).
  - by vm_compute.
  - by apply (dict_nonempty_lookup _ 1 1).
  - exists d'. split; [done|]. apply Hk.
Defined.

Lemma outcomes_uniform (ns : list Z) (k : Z) :
  Forall (λ n, 0 < n) ns → ns ≠ [] →
  k ∈ outcomes (EInt <$> ns) ↔ Z.of_nat (length ns) ≤ k ≤ sum_list ns.
Proof.
  intros Hpos Hne. revert k.
  induction Hpos as [|n ns Hn Hpos IH]; [done|]. intros k.
  rewrite fmap_cons, outcomes_cons, sum_list_cons. cbn [faces_of length].
  destruct ns as [|n' ns'].
  - rewrite msum_nil_r, elem_of_range, sum_list_nil. simpl. lia.
  - specialize (IH ltac:(done)).
    assert (Hex : Z.of_nat (length (n' :: ns')) ≤ sum_list (n' :: ns')).
    { destruct (outcomes (EInt <$> n' :: ns')) as [|b O] eqn:E.
      - destruct (length_outcomes (EInt <$> n' :: ns')) as [_ HO]; try done.
        + apply Forall_fmap. eapply Forall_impl; [exact Hpos|]. by intros.
        + apply Forall_fmap. eapply Forall_impl; [exact Hpos|].
          intros m Hm. by apply range_nonempty.
      - pose proof (proj1 (IH b) ltac:(left)). lia. }
    rewrite msum_nonempty.
    + rewrite elem_of_sums. split.
      * intros (a & b & Ha%elem_of_range & Hb%IH & <-). lia.
      * intros Hk. exists (Z.max 1 (k - sum_list (n' :: ns'))),
          (k - Z.max 1 (k - sum_list (n' :: ns'))).
        rewrite elem_of_range, IH. lia.
    + by apply range_nonempty.
    + intros E. specialize (IH (sum_list (n' :: ns'))). rewrite E in IH.
      pose proof (proj2 IH ltac:(lia)) as H. by apply elem_of_nil in H.
Qed.

(** X11.  For dice that are all given by their number of sides, the
    keys of the distribution are exactly the integers from the number of
    dice to the sum of the numbers of sides. *)
Theorem diceDict_uniform_support (ns : list Z) (g : rng) :
  Forall (λ n, 0 < n) ns → ns ≠ [] →
  ∃ d, res (diceDict (AList (EInt <$> ns)) g) = Ok d ∧
       ∀ k, k ∈ dom d ↔ Z.of_nat (length ns) ≤ k ≤ sum_list ns.
Proof.
  intros Hpos Hne.
  destruct (diceDict_correct (EInt <$> ns) g) as (d & Hd & Hr).
  { apply Forall_fmap. eapply Forall_impl; [exact Hpos|]. by intros. }
  exists d. split; [done|]. intros k.
  rewrite elem_of_dom, (proj1 (Hr k)). by apply outcomes_uniform.
Qed.

Lemma diceDict_uniform_support_witness :
  ∃ d, res (diceDict (AList (EInt <$> [6; 6; 4])) [1; 2]%nat) = Ok d ∧
       ∀ k, k ∈ dom d ↔ Z.of_nat (length [6; 6; 4]) ≤ k ≤ sum_list [6; 6; 4].
Proof.
  apply diceDict_uniform_support; [repeat constructor; lia|done].
Defined.

(** * Further properties of [roll] *)

Lemma choice_Ok_inv {A} (seq : list A) (g : rng) (a : A) :
  (choice seq g).1 = Ok a → a ∈ seq.
Proof.
  unfold choice. destruct seq as [|a0 seq0]; [done|].
  destruct (randbelow (length (a0 :: seq0)) g) as [i g']. cbn [fst].
  destruct ((a0 :: seq0) !! i) as [a'|] eqn:E; [|done].
  intros [= <-]. by apply list_elem_of_lookup_2 in E.
Qed.

Lemma roll_loop_rollable l acc g :
  Forall rollable l → ∃ v, (roll_loop l acc g).1 = Ok v.
Proof.
  revert acc g. induction l as [|die l IH]; intros acc g Hr; [by eexists|].
  apply Forall_cons in Hr as [Hr1 Hr].
  destruct die as [n|faces|s]; cbn [roll_loop]; simpl in Hr1.
  - destruct Hr1 as [Hn Hmax]. rewrite (proj2 (Z.ltb_lt 0 n) Hn).
    destruct (choice_range_small n g Hn Hmax) as (v & Hc & _).
    destruct (choice_range n g) as [[v'|e] g']; [|done]. by apply IH.
  - destruct (choice_Ok faces g Hr1) as (v & Hc & _).
    destruct (choice faces g) as [[v'|e] g']; [|done]. by apply IH.
  - by apply IH.
Qed.

Lemma roll_loop_raise l acc g e :
  (roll_loop l acc g).1 = Raise e →
  (e = negative_sides ∧ ∃ n, EInt n ∈ l ∧ n ≤ 0) ∨
  (e = IndexError ∧ EList [] ∈ l) ∨
  (e = OverflowError ∧ ∃ n, EInt n ∈ l ∧ maxsize < n).
Proof.
  revert acc g. induction l as [|die l IH]; intros acc g; [done|].
  assert (Htl : (∃ v g', (roll_loop (die :: l) acc g).1 = (roll_loop l v g').1) →
    (roll_loop (die :: l) acc g).1 = Raise e →
    (e = negative_sides ∧ ∃ n, EInt n ∈ die :: l ∧ n ≤ 0) ∨
    (e = IndexError ∧ EList [] ∈ die :: l) ∨
    (e = OverflowError ∧ ∃ n, EInt n ∈ die :: l ∧ maxsize < n)).
  { intros (v & g' & ->) [[-> (n & ? & ?)]|[[-> ?]|[-> (n & ? & ?)]]]%IH.
    - left. split; [done|]. exists n. split; [by right|done].
    - right; left. split; [done|by right].
    - right; right. split; [done|]. exists n. split; [by right|done]. }
  destruct die as [n|faces|s].
  - destruct (Z.ltb_spec 0 n) as [Hn|Hn].
    + pose proof (choice_range_Raise_inv n g) as Hinv.
      cbn [roll_loop]. rewrite (proj2 (Z.ltb_lt 0 n) Hn).
      destruct (choice_range n g) as [[v'|e'] g'] eqn:Ec.
      * intros He. apply Htl; [|by cbn [roll_loop];
          rewrite (proj2 (Z.ltb_lt 0 n) Hn), Ec].
        exists (acc + v'), g'. cbn [roll_loop].
        by rewrite (proj2 (Z.ltb_lt 0 n) Hn), Ec.
      * intros [= <-]. destruct (Hinv e' Hn eq_refl) as [-> ?].
        right; right. split; [done|]. exists n. split; [left|done].
    + cbn [roll_loop]. rewrite (proj2 (Z.ltb_ge 0 n) Hn). intros [= <-].
      left. split; [done|]. exists n. split; [left|done].
  - destruct faces as [|x faces].
    + intros [= <-]. right; left. split; [done|left].
    + apply Htl. cbn [roll_loop].
      destruct (choice_Ok (x :: faces) g) as (v & Hc & _); [done|].
      destruct (choice (x :: faces) g) as [[v'|e'] g']; [eauto|done].
  - apply Htl. cbn [roll_loop]. eauto.
Qed.

Lemma roll_loop_Ok_rollable l acc g v :
  (roll_loop l acc g).1 = Ok v → Forall rollable l.
Proof.
  revert acc g. induction l as [|die l IH]; intros acc g Hv; [done|].
  destruct die as [n|faces|s]; cbn [roll_loop] in Hv.
  - destruct (Z.ltb_spec 0 n) as [Hn|Hn]; [|done].
    pose proof (choice_range_Ok_inv n g) as Hinv.
    destruct (choice_range n g) as [[v'|e'] g']; [|done].
    destruct (Hinv v' Hn eq_refl) as [? _].
    apply Forall_cons. split; [done|eauto].
  - destruct faces as [|x faces]; [done|].
    destruct (choice (x :: faces) g) as [[v'|e'] g']; [|done].
    apply Forall_cons. split; [done|eauto].
  - apply Forall_cons. split; [done|eauto].
Qed.

(** X12.  [roll] on a list of integers, lists of faces and strings
    returns a number exactly when every integer of the list is positive
    and at most [sys.maxsize] and no element is an empty list; strings do
    not matter.  Otherwise it raises the assertion on the number of
    sides, and then the list holds an integer [n ≤ 0], or [IndexError],
    and then the list holds an empty list, or [OverflowError], and then
    the list holds an integer above [sys.maxsize]. *)
Theorem roll_accepts_rollable_lists (l : list elem) (g : rng) :
  ((∃ v, (roll (AList l) g).1 = Ok v) ↔ Forall rollable l) ∧
  (∀ e, (roll (AList l) g).1 = Raise e →
     (e = negative_sides ∧ ∃ n, EInt n ∈ l ∧ n ≤ 0) ∨
     (e = IndexError ∧ EList [] ∈ l) ∨
     (e = OverflowError ∧ ∃ n, EInt n ∈ l ∧ maxsize < n)).
Proof.
  split; [|intros e; apply roll_loop_raise].
  split; [|apply roll_loop_rollable].
  intros [v Hv]. by apply (roll_loop_Ok_rollable l 0 g v).
Qed.

Lemma roll_accepts_rollable_lists_witness :
  ∃ v, (roll (AList [EInt 6; EStr "abc"; EList [0; 5]]) [4; 1]%nat).1 = Ok v.
Proof.
  apply (roll_accepts_rollable_lists [EInt 6; EStr "abc"; EList [0; 5]] [4; 1]%nat).
  repeat constructor; by vm_compute.
Defined.

Lemma roll_loop_Ok_outcome l acc g r :
  Forall valid_die l → Forall has_faces l → l ≠ [] →
  (roll_loop l acc g).1 = Ok r → r - acc ∈ outcomes l.
Proof.
  revert acc g. induction l as [|die l IH]; intros acc g Hv Hf Hne Hr; [done|].
  apply Forall_cons in Hv as [Hv1 Hv], Hf as [Hf1 Hf].
  assert (Hstep : ∃ a g', a ∈ faces_of die ∧ (roll_loop l (acc + a) g').1 = Ok r).
  { destruct die as [n|faces|s]; [| |done]; cbn [roll_loop faces_of] in *.
    - simpl in Hv1. rewrite (proj2 (Z.ltb_lt 0 n) Hv1) in Hr.
      pose proof (choice_range_Ok_inv n g) as Hinv.
      destruct (choice_range n g) as [[a|e] g']; [|done].
      destruct (Hinv a Hv1 eq_refl) as [_ Ha].
      exists a, g'. split; [|done]. apply elem_of_range. lia.
    - pose proof (choice_Ok_inv faces g) as Hinv.
      destruct (choice faces g) as [[a|e] g']; [|done].
      exists a, g'. split; [by apply Hinv|done]. }
  destruct Hstep as (a & g' & Ha & Hr'). rewrite outcomes_cons.
  destruct l as [|die' l].
  - rewrite msum_nil_r. simpl in Hr'. injection Hr' as <-.
    by replace (acc + a - acc) with a by lia.
  - pose proof (IH (acc + a) g' Hv Hf ltac:(done) Hr') as Hin.
    rewrite msum_nonempty;
      [|by intros E; rewrite E in Ha; apply elem_of_nil in Ha
       |by intros E; rewrite E in Hin; apply elem_of_nil in Hin].
    apply elem_of_sums. exists a, (r - (acc + a)). repeat split; [done..|lia].
Qed.

Lemma valid_small_rollable l :
  Forall valid_die l → Forall has_faces l → Forall small_die l → Forall rollable l.
Proof.
  intros Hv Hf Hs. apply Forall_forall. intros die Hdie.
  rewrite Forall_forall in Hv, Hf, Hs.
  specialize (Hv _ Hdie). specialize (Hf _ Hdie). specialize (Hs _ Hdie).
  by destruct die.
Qed.

(** X13.  On a non-empty list of valid dice that all have a face, every
    number that [roll] returns is a key of the dictionary [diceDict]
    returns for the list: only outcomes with a non-zero count are
    rolled.  And [roll] does return when no die has more than
    [sys.maxsize] sides. *)
Theorem roll_in_support (l : list elem) (g g' : rng) :
  Forall valid_die l → Forall has_faces l → l ≠ [] →
  ∃ d, res (diceDict (AList l) g') = Ok d ∧
       (∀ v, (roll (AList l) g).1 = Ok v → v ∈ dom d) ∧
       (Forall small_die l → ∃ v, (roll (AList l) g).1 = Ok v).
Proof.
  intros Hv Hf Hne.
  destruct (diceDict_correct l g' Hv) as (d & Hd & Hrep).
  exists d. split; [done|]. split.
  - intros v Hr. apply elem_of_dom, Hrep.
    replace v with (v - 0) by lia.
    by apply (roll_loop_Ok_outcome l 0 g v).
  - intros Hs. by apply roll_loop_rollable, valid_small_rollable.
Qed.

Lemma roll_in_support_witness :
  ∃ d, res (diceDict (AList [EInt 6; EList [0; 0; 5]]) [1]%nat) = Ok d ∧
       ∃ v, (roll (AList [EInt 6; EList [0; 0; 5]]) [3; 2]%nat).1 = Ok v ∧ v ∈ dom d.
Proof.
  destruct (roll_in_support [EInt 6; EList [0; 0; 5]] [3; 2]%nat [1]%nat)
    as (d & Hd & Hin & Hex); [repeat constructor; by vm_compute..|done|].
  exists d. split; [done|].
  destruct Hex as [v Hv]; [repeat constructor; by vm_compute|].
  exists v. split; [done|]. by apply Hin.
Defined.

(** X14.  [roll] on a bare positive integer [n] of at most [sys.maxsize]
    returns a number from 1 to [n]; on a larger one it raises
    [OverflowError]. *)
Theorem roll_bare_integer (n : Z) (g : rng) :
  (0 < n ≤ maxsize → ∃ v, (roll (AInt n) g).1 = Ok v ∧ 1 ≤ v ≤ n) ∧
  (maxsize < n → (roll (AInt n) g).1 = Raise OverflowError).
Proof.
  unfold roll. cbn [as_list roll_loop]. split.
  - intros [Hn Hmax]. rewrite (proj2 (Z.ltb_lt 0 n) Hn).
    destruct (choice_range_small n g Hn Hmax) as (v & Hc & Hv).
    destruct (choice_range n g) as [[v'|e] g']; [|done].
    simpl in Hc. injection Hc as ->. exists (0 + v). split; [done|lia].
  - intros Hn. rewrite (proj2 (Z.ltb_lt 0 n)) by (unfold maxsize in Hn; lia).
    by rewrite choice_range_large.
Qed.

Lemma roll_bare_integer_witness :
  (∃ v, (roll (AInt 6) [11]%nat).1 = Ok v ∧ 1 ≤ v ≤ 6) ∧
  (roll (AInt (2 ^ 63)) [11]%nat).1 = Raise OverflowError.
Proof.
  split.
  - apply roll_bare_integer. by vm_compute.
  - apply roll_bare_integer. by vm_compute.
Defined.

(** * The sorted comprehensions *)

#[global] Instance item_le_total : Total item_le.
Proof. intros [k1 v1] [k2 v2]. unfold item_le. simpl. lia. Qed.

#[global] Instance item_le_trans : Transitive item_le.
Proof. intros [k1 v1] [k2 v2] [k3 v3]. unfold item_le. simpl. lia. Qed.

Lemma StronglySorted_keys (items : list (Z * Z)) :
  StronglySorted item_le items → NoDup items.*1 → StronglySorted Z.lt items.*1.
Proof.
  induction 1 as [|[k v] items Hs IH Hall]; intros Hnd; [constructor|].
  rewrite fmap_cons in *. apply NoDup_cons in Hnd as [Hk Hnd].
  constructor; [by apply IH|].
  apply Forall_fmap, Forall_forall. intros [k' v'] Hin.
  rewrite Forall_forall in Hall. specialize (Hall _ Hin).
  assert (k ≠ k').
  { intros ->. apply Hk. simpl. apply list_elem_of_fmap. by exists (k', v'). }
  unfold item_le in Hall. simpl in *. lia.
Qed.

Lemma StronglySorted_lt_le_NoDup (ks : list Z) :
  StronglySorted Z.le ks → NoDup ks → StronglySorted Z.lt ks.
Proof.
  induction 1 as [|k ks Hs IH Hall]; intros Hnd; [constructor|].
  apply NoDup_cons in Hnd as [Hk Hnd]. constructor; [by apply IH|].
  rewrite Forall_forall in *. intros k' Hin. specialize (Hall _ Hin).
  assert (k ≠ k') by (by intros ->). lia.
Qed.

(** X16.  The items that the last line of [diceDict] inserts are those
    of [final], each once, in strictly ascending order of the keys, and
    the dictionary built from them is [final]; the keys that [diceProb]
    goes through are those of the distribution in strictly ascending
    order. *)
Theorem sorted_comprehensions (d : dict) :
  sorted_items d ≡ₚ map_to_list d ∧
  StronglySorted Z.lt (sorted_items d).*1 ∧
  dict_of_items (sorted_items d) = d ∧
  sorted_keys d ≡ₚ keys d ∧
  StronglySorted Z.lt (sorted_keys d).
Proof.
  assert (Hp : sorted_items d ≡ₚ map_to_list d) by apply merge_sort_Permutation.
  repeat split.
  - done.
  - apply StronglySorted_keys; [apply StronglySorted_merge_sort; apply _|].
    rewrite Hp. apply NoDup_fst_map_to_list.
  - apply dict_of_sorted_items.
  - apply sorted_keys_perm.
  - apply StronglySorted_lt_le_NoDup; [apply StronglySorted_merge_sort; apply _|].
    rewrite sorted_keys_perm. apply NoDup_keys.
Qed.

(** * Further properties of [diceProb] and of [diceBarPlot] *)

Section floats.
Context (float : Type) (fdiv : Z → Z → float).

Lemma probabilities_Ok exact d O :
  represents d O → ∃ P, probabilities float fdiv exact d = Ok P.
Proof.
  intros Hr. destruct (decide (d = ∅)) as [->|Hne].
  { rewrite probabilities_empty. eauto. }
  pose proof (represents_total_pos _ _ Hr Hne) as Hs.
  unfold probabilities. cbv zeta. destruct exact.
  - rewrite fraction_comp by (done || apply sorted_keys_perm). by eexists.
  - rewrite truediv_comp by apply sorted_keys_perm.
    rewrite decide_False by lia. by eexists.
Qed.
End floats.

(** X17.  [diceProb] on a list returns a mapping exactly when
    [diceDict] does, so on the lists of valid dice, in either mode;
    every exception it raises is one [diceDict] raised, so it never
    raises [ZeroDivisionError]. *)
Theorem diceProb_accepts_valid_lists (float : Type) (fdiv : Z → Z → float)
    (l : list elem) (exact : bool) (g : rng) :
  ((∃ P, res (diceProb float fdiv (AList l) exact g) = Ok P) ↔ Forall valid_die l) ∧
  (∀ e, res (diceProb float fdiv (AList l) exact g) = Raise e →
        res (diceDict (AList l) g) = Raise e ∧ e ≠ ZeroDivisionError).
Proof.
  rewrite (res_diceProb _ _ _ l) by done. rewrite res_diceDict.
  destruct (res (diceDict_list l g)) as [d|e0] eqn:Hd.
  - destruct (diceDict_fuel_sound half (length l) l g d Hd) as [Hr Hv].
    destruct (probabilities_Ok float fdiv exact d _ Hr) as [P HP]. rewrite HP.
    split; [|done]. split; eauto.
  - split.
    + split; [by intros [P ?]|]. intros Hv.
      destruct (diceDict_split_correct half l g valid_split_half Hv) as (d & Hd' & _).
      unfold diceDict_list in Hd. congruence.
    + intros e [= ->]. split; [done|].
      destruct (diceDict_fuel_raise half (length l) l g e valid_split_half) as [[-> _]|[-> _]];
        done.
Qed.

Lemma diceProb_accepts_valid_lists_witness :
  ∃ P, res (diceProb Q exact_quotient (AList [EInt 2; EList [0; 5]]) true [1]%nat) = Ok P.
Proof.
  apply (diceProb_accepts_valid_lists Q exact_quotient [EInt 2; EList [0; 5]] true [1]%nat).
  repeat constructor; by vm_compute.
Defined.

Lemma Qred_unit_fraction (p : positive) : Qred (1 # p) = 1 # p.
Proof. by destruct p. Qed.

Lemma sum_values_uniform n : 0 < n → sum_values (uniform_dict n) = n.
Proof.
  intros Hn. rewrite (represents_sum_values _ _ (represents_uniform n)).
  unfold range. rewrite length_seqZ. lia.
Qed.

Lemma uniform_dict_lookup n k :
  uniform_dict n !! k = if decide (1 ≤ k ≤ n) then Some 1 else None.
Proof.
  unfold uniform_dict. rewrite dict_comp_lookup.
  destruct (decide (1 ≤ k ≤ n)) as [Hin|Hnin].
  - rewrite decide_True; [done|]. apply elem_of_range. lia.
  - rewrite decide_False; [done|]. rewrite elem_of_range. lia.
Qed.

(** X18.  [diceProb] on a bare positive integer [n] gives each of 1,
    ..., [n] the same probability and has no other key: the fraction
    [1/n] in exact mode, the float of [1 / n] otherwise. *)
Theorem diceProb_bare_integer (float : Type) (fdiv : Z → Z → float)
    (n : Z) (g : rng) :
  0 < n →
  (∃ P, res (diceProb float fdiv (AInt n) true g) = Ok (Fractions P) ∧
        ∀ k, P !! k = if decide (1 ≤ k ≤ n) then Some (1 # Z.to_pos n) else None) ∧
  (∃ P, res (diceProb float fdiv (AInt n) false g) = Ok (Floats P) ∧
        ∀ k, P !! k = if decide (1 ≤ k ≤ n) then Some (fdiv 1 n) else None).
Proof.
  intros Hn.
  assert (Hd : res (diceDict_list [EInt n] g) = Ok (uniform_dict n)).
  { unfold res. simpl. by rewrite (proj2 (Z.ltb_lt 0 n) Hn). }
  split.
  - exists ((λ c, Qred (c # Z.to_pos n)) <$> uniform_dict n). split.
    + rewrite (res_diceProb _ _ _ [EInt n]) by done. rewrite Hd.
      unfold probabilities. cbv zeta. rewrite sum_values_uniform by done.
      by rewrite fraction_comp by (done || apply sorted_keys_perm).
    + intros k. rewrite lookup_fmap, uniform_dict_lookup.
      destruct (decide (1 ≤ k ≤ n)); [|done]. simpl.
      by rewrite Qred_unit_fraction.
  - exists ((λ c, fdiv c n) <$> uniform_dict n). split.
    + rewrite (res_diceProb _ _ _ [EInt n]) by done. rewrite Hd.
      unfold probabilities. cbv zeta. rewrite sum_values_uniform by done.
      rewrite truediv_comp by apply sorted_keys_perm.
      by rewrite decide_False by lia.
    + intros k. rewrite lookup_fmap, uniform_dict_lookup.
      by destruct (decide (1 ≤ k ≤ n)).
Qed.

Lemma diceProb_bare_integer_witness :
  ∃ P, res (diceProb Q exact_quotient (AInt 6) true [2]%nat) = Ok (Fractions P) ∧
       ∀ k, P !! k = if decide (1 ≤ k ≤ 6) then Some (1 # Z.to_pos 6) else None.
Proof. apply (diceProb_bare_integer Q exact_quotient 6 [2]%nat). lia. Defined.

(** X19.  [diceBarPlot] checks for a list or an integer but hands its
    argument to [diceDict] as it is: on every bare integer it raises the
    invalid-argument assertion of [diceDict], on any other argument that
    is not a list its own; on a list it draws the keys and the values of
    the dictionary [diceDict] returns, key by key. *)
Theorem diceBarPlot_behaviour (g : rng) :
  (∀ n, res (diceBarPlot (AInt n) g) = Raise (invalid_argument "diceDict")) ∧
  (∀ s, res (diceBarPlot (AStr s) g) = Raise (invalid_argument "diceHist")) ∧
  (∀ l, match res (diceDict (AList l) g) with
        | Ok d => ∃ ks vs, res (diceBarPlot (AList l) g) = Ok (ks, vs) ∧
                           zip ks vs = map_to_list d
        | Raise e => res (diceBarPlot (AList l) g) = Raise e
        end).
Proof.
  repeat split; try done.
  intros l. unfold diceBarPlot. cbn [as_list].
  destruct (diceDict (AList l) g) as [[[d|e] a] g']; unfold res; cbn [fst result_map];
    [|done].
  exists (keys d), (values d). split; [done|]. apply zip_fst_snd.
Qed.

(** X20.  The older [diceDict] and the newer one agree on every list and
    generator: the same result or exception, the same content of the
    caller's list and the same state of the generator. *)
Theorem diceDict_old_new_agree (l : list elem) (g : rng) :
  Old.diceDict_list l g = diceDict_list l g.
Proof. apply diceDict_fuel_old. Qed.

(** X21.  [diceProb] leaves a list it is given with the same dice in
    some order, whether it returns or raises, and leaves a bare integer
    argument as it is. *)
Theorem diceProb_caller_argument (float : Type) (fdiv : Z → Z → float)
    (exact : bool) (g : rng) :
  (∀ l, ∃ l', after (diceProb float fdiv (AList l) exact g) = AList l' ∧ l' ≡ₚ l) ∧
  (∀ n, after (diceProb float fdiv (AInt n) exact g) = AInt n).
Proof.
  split.
  - intros l. exists (after (diceDict_list l g)). split.
    + unfold diceProb. cbn [as_list].
      by destruct (diceDict_list l g) as [[[d|e] l'] g'].
    + apply diceDict_fuel_after.
  - intros n. unfold diceProb. cbn [as_list].
    by destruct (diceDict_list [EInt n] g) as [[[d|e] l'] g'].
Qed.

(** * The distribution as a fold and as a count of combinations *)

Lemma represents_die_dict die : valid_die die → represents (die_dict die) (faces_of die).
Proof.
  destruct die as [n|faces|s]; [intros _; apply represents_uniform
                               |intros _; apply represents_explicit|done].
Qed.

(** X22.  On a list of valid dice the divide-and-conquer of [diceDict]
    returns what merging the dictionaries of the single dice one after
    the other returns. *)
Theorem diceDict_is_fold (l : list elem) (g : rng) :
  Forall valid_die l →
  res (diceDict (AList l) g) =
  Ok (foldr (λ die acc, _mergeDiceDicts (die_dict die) acc) ∅ l).
Proof.
  intros Hv. destruct (diceDict_correct l g Hv) as (d & -> & Hr). f_equal.
  apply (represents_unique _ _ (outcomes l)); [done|].
  clear d Hr. induction Hv as [|die l Hdie Hv IH]; [apply represents_empty|].
  cbn [foldr]. rewrite outcomes_cons.
  by apply represents_merge; [apply represents_die_dict|].
Qed.

Lemma diceDict_is_fold_witness :
  res (diceDict (AList [EInt 6; EList [0; 5]; EInt 4]) [1; 0]%nat) =
  Ok (foldr (λ die acc, _mergeDiceDicts (die_dict die) acc) ∅
            [EInt 6; EList [0; 5]; EInt 4]).
Proof. apply diceDict_is_fold. repeat constructor; by vm_compute. Defined.

Lemma sums_zero O : sums O [0] = O.
Proof.
  unfold sums. induction O as [|a O IH]; [done|].
  rewrite bind_cons, IH. simpl. by rewrite Z.add_0_r.
Qed.

Lemma sum_list_combos_step faces (acc : list (list Z)) :
  sum_list <$> (a ← faces; (λ c, a :: c) <$> acc) = sums faces (sum_list <$> acc).
Proof.
  unfold sums. induction faces as [|a faces IH]; [done|].
  rewrite !bind_cons, fmap_app, IH. f_equal.
  rewrite <- !list_fmap_compose. apply list_fmap_ext. intros i c _.
  simpl. apply sum_list_cons.
Qed.

Lemma outcomes_combos l :
  Forall valid_die l → Forall has_faces l → l ≠ [] →
  outcomes l = sum_list <$> combos l.
Proof.
  induction l as [|die l IH]; intros Hv Hf Hne; [done|].
  apply Forall_cons in Hv as [Hv1 Hv], Hf as [Hf1 Hf].
  cbn [combos foldr]. fold (combos l).
  rewrite sum_list_combos_step, outcomes_cons.
  destruct l as [|die' l].
  - by rewrite msum_nil_r, sums_zero.
  - rewrite <- IH by done.
    apply msum_nonempty; [done|]. by apply length_outcomes.
Qed.

Lemma count_fmap_filter {A} (f : A → Z) (s : Z) (l : list A) :
  count s (f <$> l) = Z.of_nat (length (filter (λ c, f c = s) l)).
Proof.
  induction l as [|c l IH]; [done|].
  rewrite fmap_cons, count_cons, IH, filter_cons. unfold ind.
  destruct (decide (f c = s)); simpl; lia.
Qed.

(** X23.  On a non-empty list of valid dice that all have a face, the
    count that [diceDict] gives an outcome [s] is the number of ways to
    pick one face from each die so that the faces add up to [s], and [s]
    is a key exactly when there is such a way. *)
Theorem diceDict_counts_combinations (l : list elem) (g : rng) (d : dict) (s : Z) :
  Forall has_faces l → l ≠ [] →
  res (diceDict (AList l) g) = Ok d →
  d !! s =
    let ways := length (filter (λ c, sum_list c = s) (combos l)) in
    if decide (ways = 0%nat) then None else Some (Z.of_nat ways).
Proof.
  intros Hf Hne [Hr Hv]%diceDict_sound. cbv zeta.
  rewrite outcomes_combos in Hr by done.
  destruct (Hr s) as [Hs Hg]. rewrite count_fmap_filter in Hg.
  rewrite <- count_pos_iff, count_fmap_filter in Hs.
  rewrite (lookup_get d), Hg.
  destruct (decide (length (filter (λ c, sum_list c = s) (combos l)) = 0%nat)) as [E|E].
  - rewrite decide_False; [done|]. rewrite Hs. lia.
  - rewrite decide_True; [done|]. apply Hs. lia.
Qed.

Lemma diceDict_counts_combinations_witness :
  uniform_dict 2 !! 2 =
    let ways := length (filter (λ c, sum_list c = 2) (combos [EInt 2])) in
    if decide (ways = 0%nat) then None else Some (Z.of_nat ways).
Proof.
  apply (diceDict_counts_combinations [EInt 2] []);
    [repeat constructor; by vm_compute|done|by vm_compute].
Defined.
